(** * git-user: the interactive session over the identity store

    A shallow embedding of [cmd/git-user/main.go]: the SQLite-backed
    identity store, the fuzzy filter over a snapshot of identities, and
    the Bubble Tea update function with its three modes.

    Go values are modelled as the program has them:
    - a [string] is a sequence of bytes (UTF-8 text);
    - a slice is a header (backing array, length, capacity) into a heap of
      backing arrays, so that two headers over one array observe each
      other's writes;
    - [list.Item] is an interface value, [nil] or a [userItem];
    - a run-time panic (index out of range, method call on a nil
      interface) is the result [None];
    - the outcomes of the outside world during one event (storage faults,
      [git] subprocess results) are read from an explicit [Env]. *)

From Stdlib Require Import ZArith NArith Ascii String List Sorted.
From stdpp Require Import base option list strings.

Local Open Scope string_scope.
Local Open Scope list_scope.

(** ** Go strings: [strings.TrimSpace] and [strings.Contains] *)

Definition byte_is (n : N) (c : ascii) : bool := N.eqb (N_of_ascii c) n.

Definition byte_in (lo hi : N) (c : ascii) : bool :=
  N.leb lo (N_of_ascii c) && N.leb (N_of_ascii c) hi.

(** The six ASCII white-space bytes: tab, line feed, vertical tab, form
    feed, carriage return, space. *)
Definition asciiSpace (c : ascii) : bool := byte_in 9 13 c || byte_is 32 c.

(** U+0085 and U+00A0, encoded on two bytes. *)
Definition space2 (c0 c1 : ascii) : bool :=
  byte_is 194 c0 && (byte_is 133 c1 || byte_is 160 c1).

(** U+1680, U+2000..U+200A, U+2028, U+2029, U+202F, U+205F and U+3000,
    encoded on three bytes. *)
Definition space3 (c0 c1 c2 : ascii) : bool :=
  (byte_is 225 c0 && byte_is 154 c1 && byte_is 128 c2)
  || (byte_is 226 c0 && byte_is 128 c1
      && (byte_in 128 138 c2 || byte_is 168 c2 || byte_is 169 c2 || byte_is 175 c2))
  || (byte_is 226 c0 && byte_is 129 c1 && byte_is 159 c2)
  || (byte_is 227 c0 && byte_is 128 c1 && byte_is 128 c2).

(** Leading white space, one code point at a time. *)
Fixpoint trimLeft (s : list ascii) : list ascii :=
  match s with
  | [] => []
  | c0 :: s1 =>
      if asciiSpace c0 then trimLeft s1 else
      match s1 with
      | [] => s
      | c1 :: s2 =>
          if space2 c0 c1 then trimLeft s2 else
          match s2 with
          | [] => s
          | c2 :: s3 => if space3 c0 c1 c2 then trimLeft s3 else s
          end
      end
  end.

(** Trailing white space, on the reversed bytes: [c0] is the last byte. *)
Fixpoint trimLeftRev (s : list ascii) : list ascii :=
  match s with
  | [] => []
  | c0 :: s1 =>
      if asciiSpace c0 then trimLeftRev s1 else
      match s1 with
      | [] => s
      | c1 :: s2 =>
          if space2 c1 c0 then trimLeftRev s2 else
          match s2 with
          | [] => s
          | c2 :: s3 => if space3 c2 c1 c0 then trimLeftRev s3 else s
          end
      end
  end.

(** A white-space code point leads the bytes. *)
Definition lead (l : list ascii) : bool :=
  match l with
  | [] => false
  | c0 :: s1 =>
      asciiSpace c0
      || match s1 with
         | [] => false
         | c1 :: s2 =>
             space2 c0 c1
             || match s2 with
                | [] => false
                | c2 :: _ => space3 c0 c1 c2
                end
         end
  end.

(** A white-space code point ends the bytes, given last byte first. *)
Definition trail (l : list ascii) : bool :=
  match l with
  | [] => false
  | c0 :: s1 =>
      asciiSpace c0
      || match s1 with
         | [] => false
         | c1 :: s2 =>
             space2 c1 c0
             || match s2 with
                | [] => false
                | c2 :: _ => space3 c2 c1 c0
                end
         end
  end.

Definition trimRight (s : list ascii) : list ascii := rev (trimLeftRev (rev s)).

Definition TrimSpace (s : string) : string :=
  string_of_list_ascii (trimRight (trimLeft (list_ascii_of_string s))).

Fixpoint Contains (s substr : string) : bool :=
  String.prefix substr s
  || match s with
     | EmptyString => false
     | String _ s' => Contains s' substr
     end.

(** ** The identity store *)

(** [ID] is an [int64] the program never computes with: the database
    assigns it. *)
Record User := mkUser { ID : Z; Name : string; Email : string }.

(** A Go [error], by its message. *)
Definition error := string.

(** The [users] table behind [Store.db], as one connection sees it:
    the rows in rowid order, the AUTOINCREMENT counter kept in
    [sqlite_sequence], and the connection's last insert rowid. *)
Record Store := mkStore {
  rows : list User;
  sqlite_sequence : Z;
  last_insert_rowid : Z
}.

Definition same_pair (name email : string) (u : User) : bool :=
  bool_decide (Name u = name) && bool_decide (Email u = email).

(** [UNIQUE(name, email)]: a row with this pair is already there. *)
Definition has_pair (name email : string) (s : Store) : bool :=
  existsb (same_pair name email) (rows s).

(** ASCII case folding of [COLLATE NOCASE]. *)
Definition nocase_byte (c : ascii) : N :=
  let n := N_of_ascii c in
  if byte_in 65 90 c then (n + 32)%N else n.

Fixpoint nocase_le (a b : list ascii) : bool :=
  match a, b with
  | [], _ => true
  | _ :: _, [] => false
  | x :: a', y :: b' =>
      if N.ltb (nocase_byte x) (nocase_byte y) then true
      else if N.ltb (nocase_byte y) (nocase_byte x) then false
      else nocase_le a' b'
  end.

Definition name_le (u v : User) : bool :=
  nocase_le (list_ascii_of_string (Name u)) (list_ascii_of_string (Name v)).

(** Insertion after the rows that are not larger: rows with equal keys
    keep their rowid order. *)
Fixpoint insert_by_name (u : User) (l : list User) : list User :=
  match l with
  | [] => [u]
  | v :: l' => if name_le v u then v :: insert_by_name u l' else u :: l
  end.

Definition order_by_name (l : list User) : list User :=
  fold_left (fun acc u => insert_by_name u acc) l [].

(** How a [SELECT] can fail: before any row is produced ([QueryContext]
    or [rows.Scan]), or while iterating, after [n] rows were read
    ([rows.Err]). *)
Inductive list_fault :=
| QueryFails (e : error)
| IterFails (n : nat) (e : error).

(** [allUsers]: [SELECT id, name, email FROM users ORDER BY name COLLATE
    NOCASE], rows of equal names taken in rowid order. On a fault during
    iteration the rows read so far are returned next to the error. *)
Definition allUsers (f : option list_fault) (s : Store) : list User * option error :=
  match f with
  | None => (order_by_name (rows s), None)
  | Some (QueryFails e) => ([], Some e)
  | Some (IterFails n e) => (take n (order_by_name (rows s)), Some e)
  end.

(** [insertUser]: [INSERT OR IGNORE INTO users(name,email)] of the
    trimmed fields, then [res.LastInsertId()]. The statement draws the
    rowid after the AUTOINCREMENT counter, which is at or above every
    rowid of the table, before it checks [UNIQUE(name, email)], and the
    counter keeps what was drawn: a new row takes that rowid, and an
    ignored insert writes no row and leaves the connection's last insert
    rowid as it was, but has spent the rowid all the same. A statement
    that fails, whatever the cause, changes nothing. *)
Definition insertUser (f : option error) (name email : string) (s : Store)
  : Store * (Z * option error) :=
  match f with
  | Some e => (s, (0%Z, Some e))
  | None =>
      let n := TrimSpace name in
      let e := TrimSpace email in
      let id := (sqlite_sequence s + 1)%Z in
      if has_pair n e s then
        (mkStore (rows s) id (last_insert_rowid s), (last_insert_rowid s, None))
      else
        (mkStore (rows s ++ [mkUser id n e]) id id, (id, None))
  end.

(** [deleteUser]: [DELETE FROM users WHERE id=?]. *)
Definition deleteUser (f : option error) (id : Z) (s : Store) : Store * option error :=
  match f with
  | Some e => (s, Some e)
  | None =>
      (mkStore (filter (fun u => ID u ≠ id) (rows s)) (sqlite_sequence s) (last_insert_rowid s), None)
  end.

(** ** TUI items *)

(** [type userItem User] *)
Definition userItem := User.

(** A value of the interface [list.Item]: [nil], or a [userItem], the only
    type of the program that implements it. *)
Definition Item := option userItem.

Definition FilterValue (u : userItem) : string :=
  Name u +:+ " <" +:+ Email u +:+ ">".

(** ** Slices over a heap of backing arrays *)

(** The backing arrays, by address. An array has as many cells as its
    capacity; a cell that was never written holds the zero value. *)
Abbreviation Heap := (list (list Item)).

(** A slice header. Every slice expression of the program is [s[:0]], so
    a slice always starts at the first cell of its array. *)
Record slice := mkSlice { s_arr : option nat; s_len : nat; s_cap : nat }.

Definition nil_slice : slice := mkSlice None 0 0.

(** The elements a slice shows; [None] when the header does not fit the
    heap. *)
Definition items_of (h : Heap) (s : slice) : option (list Item) :=
  match s_arr s with
  | None => Some []
  | Some a =>
      arr ← h !! a;
      if decide (s_len s ≤ length arr)%nat then Some (take (s_len s) arr) else None
  end.

(** [make([]list.Item, 0, n)] *)
Definition make (n : nat) (h : Heap) : Heap * slice :=
  (h ++ [replicate n None], mkSlice (Some (length h)) 0 n).

(** [s[:0]] *)
Definition reslice0 (s : slice) : slice := mkSlice (s_arr s) 0 (s_cap s).

(** Capacity of the array [append] allocates when the old one is full (the
    runtime may round it up further). *)
Definition growcap (c : nat) : nat :=
  match c with 0 => 1 | _ => 2 * c end.

(** [append(s, x)]: in place while the capacity allows, which every other
    header over the same array observes; into a fresh array otherwise. *)
Definition append (s : slice) (x : Item) (h : Heap) : option (Heap * slice) :=
  if decide (s_len s < s_cap s)%nat then
    a ← s_arr s;
    arr ← h !! a;
    if decide (s_len s < length arr)%nat
    then Some (<[a := <[s_len s := x]> arr]> h, mkSlice (Some a) (S (s_len s)) (s_cap s))
    else None
  else
    old ← items_of h s;
    let c := growcap (s_cap s) in
    Some (h ++ [old ++ x :: replicate (c - S (s_len s)) None],
          mkSlice (Some (length h)) (S (s_len s)) c).

Fixpoint append_all (xs : list Item) (s : slice) (h : Heap) : option (Heap * slice) :=
  match xs with
  | [] => Some (h, s)
  | x :: xs' => '(h', s') ← append s x h; append_all xs' s' h'
  end.

(** [items := make([]list.Item, 0, len(users))] followed by the loop that
    appends [userItem(u)] for each user. *)
Definition items_of_users (users : list User) (h : Heap) : option (Heap * slice) :=
  let '(h0, s0) := make (length users) h in
  append_all (Some <$> users) s0 h0.

(** ** Key messages and bindings *)

Inductive KeyType :=
| KeyRunes | KeyEnter | KeyEsc | KeyBackspace | KeyDelete | KeyCtrlC
| KeyOther (name : string).

#[global] Instance KeyType_eq_dec : EqDecision KeyType.
Proof. solve_decision. Defined.

Record KeyMsg := mkKey { KType : KeyType; Runes : string; Alt : bool }.

(** [KeyMsg.String()] *)
Definition KeyString (k : KeyMsg) : string :=
  (if Alt k then "alt+" else "") +:+
  match KType k with
  | KeyRunes => Runes k
  | KeyEnter => "enter"
  | KeyEsc => "esc"
  | KeyBackspace => "backspace"
  | KeyDelete => "delete"
  | KeyCtrlC => "ctrl+c"
  | KeyOther name => name
  end.

Record keymap := mkKeymap {
  Quit : list string;
  Add : list string;
  Edit : list string;
  Delete : list string;
  Global : list string;
  Local : list string;
  Filter : list string;
  Clear : list string;
  Help : list string;
  Enter : list string
}.

Definition newKeymap : keymap :=
  {| Quit := ["q"; "ctrl+c"];
     Add := ["a"];
     Edit := ["e"];
     Delete := ["del"; "backspace"];
     Global := ["g"];
     Local := ["l"];
     Filter := ["/"];
     Clear := ["esc"];
     Help := ["?"];
     Enter := ["enter"] |}.

(** [key.Matches(k, b)] *)
Definition Matches (k : KeyMsg) (b : list string) : bool :=
  bool_decide (KeyString k ∈ b).

(** ** Widgets *)

(** A [textinput.Model], by what the program reads of it. *)
Record textinput := mkInput { Value : string; Focused : bool }.

Definition SetValue (s : string) (t : textinput) : textinput := mkInput s (Focused t).
Definition Focus (t : textinput) : textinput := mkInput (Value t) true.
Definition Blur (t : textinput) : textinput := mkInput (Value t) false.
Definition CursorStart (t : textinput) : textinput := t.

(** A [list.Model]: the slice it was given and the index of the cursor. *)
Record listModel := mkList { items : slice; index : nat }.

(** [SelectedItem()]: [nil] when the index is past the items. *)
Definition SelectedItem (l : listModel) (h : Heap) : option Item :=
  its ← items_of h (items l);
  Some (default None (its !! index l)).

(** A [tea.Cmd], as far as the program tells them apart: [nil],
    [tea.Quit], or a command of a text input (the blinking of its cursor, a
    paste), which is never [tea.Quit]. *)
Inductive Cmd := NoCmd | QuitCmd | WidgetCmd.

(** What the imported packages compute and the program only passes on:
    the matcher [fuzzy.Find], by the [Index] of each match it returns, in
    order; the text editing of a [textinput]; the cursor of a [list]
    when a key reaches it (key, number of items, index) and the command
    the list returns with it, which is the list's to choose and can be
    [tea.Quit]; the cursor when the items of the list are replaced (number of
    items, index) and when it is resized (width, height, number of items,
    index). *)
Class Toolkit := {
  Find : string → list string → list nat;
  input_Update : KeyMsg → textinput → textinput;
  list_Update : KeyMsg → nat → nat → nat;
  list_Cmd : KeyMsg → nat → nat → Cmd;
  list_SetItems : nat → nat → nat;
  list_SetSize : Z → Z → nat → nat → nat
}.

(** [SetSize(w, h)] *)
Definition SetSize `{Toolkit} (wd ht : Z) (l : listModel) : listModel :=
  mkList (items l) (list_SetSize wd ht (s_len (items l)) (index l)).

(** [SetItems(i)] *)
Definition SetItems `{Toolkit} (i : slice) (l : listModel) : listModel :=
  mkList i (list_SetItems (s_len i) (index l)).

(** ** The fuzzy filter *)

Record fuzzyList := mkFuzzy { all : slice; view : slice; query : string }.

(** The loop [for _, m := range matches { fl.view = append(fl.view,
    arr[m.Index].it) }]. *)
Fixpoint collect (arr : list (string * Item)) (ms : list nat) (v : slice) (h : Heap)
  : option (Heap * slice) :=
  match ms with
  | [] => Some (h, v)
  | i :: ms' =>
      kv ← arr !! i;
      '(h', v') ← append v kv.2 h;
      collect arr ms' v' h'
  end.

(** [it.FilterValue()] next to [it]; a nil [it] panics. *)
Definition keyed (it : Item) : option (string * Item) :=
  u ← it; Some (FilterValue u, it).

Definition apply `{Toolkit} (q : string) (fl : fuzzyList) (h : Heap)
  : option (fuzzyList * Heap) :=
  if bool_decide (TrimSpace q = "") then
    Some (mkFuzzy (all fl) (all fl) q, h)
  else
    its ← items_of h (all fl);
    arr ← mapM keyed its;
    let corpus := arr.*1 in
    let matches := Find q corpus in
    '(h', v) ← collect arr matches (reslice0 (view fl)) h;
    Some (mkFuzzy (all fl) v q, h').

Definition setAll `{Toolkit} (its : slice) (fl : fuzzyList) (h : Heap)
  : option (fuzzyList * Heap) :=
  apply "" (mkFuzzy its (view fl) (query fl)) h.

(** ** The outside world *)

(** The author configuration [git config] reads and writes. *)
Record GitConfig := mkGit {
  global_name : option string;
  global_email : option string;
  local_name : option string;
  local_email : option string
}.

(** Everything the session shares with its environment: the database, the
    backing arrays, the git configuration and the subprocesses run so
    far, by their command lines. *)
Record World := mkWorld {
  db : Store;
  heap : Heap;
  git : GitConfig;
  procs : list (list string)
}.

(** What the environment decides while one event is handled: whether each
    statement sent to the database fails, whether the working directory
    is inside a work tree, and whether each [git config] write fails, with
    the error and the combined output of the subprocess. *)
Record Env := mkEnv {
  delete_fault : option error;
  insert_fault : option error;
  select_fault : option list_fault;
  in_repo : bool;
  name_fault : option (string * string);
  email_fault : option (string * string)
}.

Definition set_db (s : Store) (w : World) : World :=
  mkWorld s (heap w) (git w) (procs w).
Definition set_heap (h : Heap) (w : World) : World :=
  mkWorld (db w) h (git w) (procs w).
Definition set_git (g : GitConfig) (w : World) : World :=
  mkWorld (db w) (heap w) g (procs w).
Definition run (cmd : list string) (w : World) : World :=
  mkWorld (db w) (heap w) (git w) (procs w ++ [cmd]).

(** ** git ops *)

Definition gitInRepo (env : Env) (w : World) : bool * World :=
  (in_repo env, run ["git"; "rev-parse"; "--is-inside-work-tree"] w).

Definition write_name (global : bool) (v : string) (g : GitConfig) : GitConfig :=
  if global then mkGit (Some v) (global_email g) (local_name g) (local_email g)
  else mkGit (global_name g) (global_email g) (Some v) (local_email g).

Definition write_email (global : bool) (v : string) (g : GitConfig) : GitConfig :=
  if global then mkGit (global_name g) (Some v) (local_name g) (local_email g)
  else mkGit (global_name g) (global_email g) (local_name g) (Some v).

(** [fmt.Errorf("git: %v: %s", err, string(out))] *)
Definition git_error (eo : string * string) : error :=
  "git: " +:+ eo.1 +:+ ": " +:+ eo.2.

Definition setGitUser (env : Env) (scope : string) (u : User) (w : World)
  : World * option error :=
  let global := bool_decide (scope = "global") in
  let args := "git" :: "config" :: (if global then ["--global"] else []) in
  let w1 := run (args ++ ["user.name"; Name u]) w in
  match name_fault env with
  | Some eo => (w1, Some (git_error eo))
  | None =>
      let w2 := set_git (write_name global (Name u) (git w1)) w1 in
      let w3 := run (args ++ ["user.email"; Email u]) w2 in
      match email_fault env with
      | Some eo => (w3, Some (git_error eo))
      | None => (set_git (write_email global (Email u) (git w3)) w3, None)
      end
  end.

(** ** The model *)

Inductive mode := modeList | modeAdd | modeEdit.

#[global] Instance mode_eq_dec : EqDecision mode.
Proof. solve_decision. Defined.

Record model := mkModel {
  keys : keymap;
  list_ : listModel;
  filter_ : textinput;
  form1 : textinput;
  form2 : textinput;
  fuzzy : fuzzyList;
  mode_ : mode;
  status : string;
  errMsg : string;
  width : Z;
  height : Z
}.

Definition set_list (l : listModel) (m : model) : model :=
  mkModel (keys m) l (filter_ m) (form1 m) (form2 m) (fuzzy m) (mode_ m)
          (status m) (errMsg m) (width m) (height m).
Definition set_filter (t : textinput) (m : model) : model :=
  mkModel (keys m) (list_ m) t (form1 m) (form2 m) (fuzzy m) (mode_ m)
          (status m) (errMsg m) (width m) (height m).
Definition set_form1 (t : textinput) (m : model) : model :=
  mkModel (keys m) (list_ m) (filter_ m) t (form2 m) (fuzzy m) (mode_ m)
          (status m) (errMsg m) (width m) (height m).
Definition set_form2 (t : textinput) (m : model) : model :=
  mkModel (keys m) (list_ m) (filter_ m) (form1 m) t (fuzzy m) (mode_ m)
          (status m) (errMsg m) (width m) (height m).
Definition set_fuzzy (f : fuzzyList) (m : model) : model :=
  mkModel (keys m) (list_ m) (filter_ m) (form1 m) (form2 m) f (mode_ m)
          (status m) (errMsg m) (width m) (height m).
Definition set_mode (x : mode) (m : model) : model :=
  mkModel (keys m) (list_ m) (filter_ m) (form1 m) (form2 m) (fuzzy m) x
          (status m) (errMsg m) (width m) (height m).
Definition set_status (s : string) (m : model) : model :=
  mkModel (keys m) (list_ m) (filter_ m) (form1 m) (form2 m) (fuzzy m) (mode_ m)
          s (errMsg m) (width m) (height m).
Definition set_errMsg (s : string) (m : model) : model :=
  mkModel (keys m) (list_ m) (filter_ m) (form1 m) (form2 m) (fuzzy m) (mode_ m)
          (status m) s (width m) (height m).
Definition set_size (wd ht : Z) (m : model) : model :=
  mkModel (keys m) (list_ m) (filter_ m) (form1 m) (form2 m) (fuzzy m) (mode_ m)
          (status m) (errMsg m) wd ht.

Definition Step := option (model * Cmd * World).

Section Session.
Context `{Toolkit}.

Definition syncListView (m : model) : model :=
  set_list (SetItems (view (fuzzy m)) (list_ m)) m.

(** [m.fuzzy.apply(q)] followed by [m.syncListView()]. *)
Definition refilter (q : string) (m : model) (w : World) : option (model * World) :=
  '(fl, h) ← apply q (fuzzy m) (heap w);
  Some (syncListView (set_fuzzy fl m), set_heap h w).

(** The items of [users] handed to [m.fuzzy.setAll], followed by
    [m.syncListView()]. *)
Definition show_users (users : list User) (m : model) (w : World)
  : option (model * World) :=
  '(h0, its) ← items_of_users users (heap w);
  '(fl, h) ← setAll its (fuzzy m) h0;
  Some (syncListView (set_fuzzy fl m), set_heap h w).

Definition initialModel (users : list User) (w : World) : option (model * World) :=
  '(h0, its) ← items_of_users users (heap w);
  let m :=
    {| keys := newKeymap;
       list_ := mkList its 0;
       filter_ := mkInput "" false;
       form1 := mkInput "" false;
       form2 := mkInput "" false;
       fuzzy := mkFuzzy nil_slice nil_slice "";
       mode_ := modeList;
       status := "↑/↓ select, g=global, l=local, a=add, ?=help";
       errMsg := "";
       width := 0;
       height := 0 |} in
  '(fl, h) ← setAll its (fuzzy m) h0;
  Some (syncListView (set_fuzzy fl m), set_heap h w).

(** ** update *)

Definition applySelected (scope : string) (env : Env) (m : model) (w : World) : Step :=
  sel ← SelectedItem (list_ m) (heap w);
  match sel with
  | None => Some (m, NoCmd, w)
  | Some it =>
      let guard_repo :=
        if bool_decide (scope = "local") then
          let '(inside, w1) := gitInRepo env w in (negb inside, w1)
        else (false, w) in
      let '(outside, w1) := guard_repo in
      if outside then
        Some (set_errMsg "not inside a git repo (local set aborted)" m, NoCmd, w1)
      else
        match setGitUser env scope it w1 with
        | (w2, Some e) => Some (set_errMsg e m, NoCmd, w2)
        | (w2, None) =>
            Some (set_status ("set " +:+ scope +:+ ": " +:+ Name it +:+ " <" +:+ Email it +:+ ">") m,
                  NoCmd, w2)
        end
  end.

Definition updateListKeys (k : KeyMsg) (env : Env) (m : model) (w : World) : Step :=
  if Matches k (Quit (keys m)) then Some (m, QuitCmd, w)
  else if Matches k (Help (keys m)) then
    Some (set_status "keys: a add • g set global • l set local • / filter • del delete • e edit • enter=set local" m,
          NoCmd, w)
  else if Matches k (Filter (keys m)) then
    let m := set_filter (Focus (CursorStart (SetValue "" (filter_ m)))) m in
    let m := set_mode modeList m in
    Some (set_status "type to filter, enter to apply, esc to clear" m, NoCmd, w)
  else if bool_decide (KType k = KeyRunes) && Focused (filter_ m) then
    let m := set_filter (input_Update k (filter_ m)) m in
    '(m, w) ← refilter (Value (filter_ m)) m w;
    Some (m, WidgetCmd, w)
  else if bool_decide (KType k = KeyEnter) then applySelected "local" env m w
  else if bool_decide (KType k = KeyEsc) && Focused (filter_ m) then
    let m := set_filter (SetValue "" (Blur (filter_ m))) m in
    '(m, w) ← refilter "" m w;
    Some (set_status "filter cleared" m, NoCmd, w)
  else if Matches k (Add (keys m)) then
    let m := set_mode modeAdd m in
    let m := set_form1 (SetValue "" (form1 m)) m in
    let m := set_form2 (SetValue "" (form2 m)) m in
    let m := set_form1 (Focus (form1 m)) m in
    Some (set_status "add user: enter to next/save, esc to cancel" m, NoCmd, w)
  else if Matches k (Delete (keys m)) then
    sel ← SelectedItem (list_ m) (heap w);
    match sel with
    | None => Some (m, NoCmd, w)
    | Some it =>
        let '(s1, _) := deleteUser (delete_fault env) (ID it) (db w) in
        let w := set_db s1 w in
        let '(users, _) := allUsers (select_fault env) (db w) in
        '(m, w) ← show_users users m w;
        Some (set_status "deleted" m, NoCmd, w)
    end
  else if Matches k (Edit (keys m)) then
    sel ← SelectedItem (list_ m) (heap w);
    match sel with
    | None => Some (m, NoCmd, w)
    | Some it =>
        let m := set_mode modeEdit m in
        let m := set_form1 (SetValue (Name it) (form1 m)) m in
        let m := set_form2 (SetValue (Email it) (form2 m)) m in
        let m := set_form1 (Focus (form1 m)) m in
        Some (set_status "edit user: enter cycles fields, esc cancels" m, NoCmd, w)
    end
  else if Matches k (Global (keys m)) then applySelected "global" env m w
  else if Matches k (Local (keys m)) then applySelected "local" env m w
  else
    let l := list_ m in
    Some (set_list (mkList (items l) (list_Update k (s_len (items l)) (index l))) m,
          list_Cmd k (s_len (items l)) (index l), w).

Definition updateFormKeys (k : KeyMsg) (env : Env) (m : model) (w : World) : Step :=
  if Matches k (Clear (keys m)) then
    Some (set_status "cancelled" (set_mode modeList m), NoCmd, w)
  else if bool_decide (KType k = KeyEnter) then
    if Focused (form1 m) then
      let m := set_form1 (Blur (form1 m)) m in
      Some (set_form2 (Focus (form2 m)) m, NoCmd, w)
    else
      let name := TrimSpace (Value (form1 m)) in
      let email := TrimSpace (Value (form2 m)) in
      if bool_decide (name = "") || bool_decide (email = "") || negb (Contains email "@") then
        Some (set_errMsg "invalid name/email" m, NoCmd, w)
      else
        sel ← (if bool_decide (mode_ m = modeAdd) then Some None
               else SelectedItem (list_ m) (heap w));
        let w :=
          match sel with
          | Some it => set_db (deleteUser (delete_fault env) (ID it) (db w)).1 w
          | None => w
          end in
        match insertUser (insert_fault env) name email (db w) with
        | (_, (_, Some e)) => Some (set_errMsg e m, NoCmd, w)
        | (s1, (_, None)) =>
            let w := set_db s1 w in
            let '(users, _) := allUsers (select_fault env) (db w) in
            '(m, w) ← show_users users m w;
            Some (set_status "saved" (set_mode modeList m), NoCmd, w)
        end
  else
    let m := set_form1 (input_Update k (form1 m)) m in
    Some (set_form2 (input_Update k (form2 m)) m, WidgetCmd, w).

(** The messages the program tells apart; any other message only reaches
    the widgets. *)
Inductive Msg :=
| WindowSizeMsg (wd ht : Z)
| KeyPress (k : KeyMsg).

Definition Update (msg : Msg) (env : Env) (m : model) (w : World) : Step :=
  match msg with
  | WindowSizeMsg wd ht =>
      let m := set_size wd ht m in
      Some (set_list (SetSize (width m) (height m - 7) (list_ m)) m, NoCmd, w)
  | KeyPress k =>
      match mode_ m with
      | modeList => updateListKeys k env m w
      | modeAdd | modeEdit => updateFormKeys k env m w
      end
  end.

End Session.

(** ** The contract of the matcher *)

(** What a matcher brings of its own: what the characters of a text
    are, which characters count as the same (letter case, for one, is not
    told apart), and the score of a text for a query. *)
Record Matcher := mkMatcher {
  char : Type;
  chars : string → list char;
  same_char : char → char → bool;
  score : string → string → Z
}.

(** Every character of [q] occurs in [s], in the same order. *)
Fixpoint subseq (M : Matcher) (q s : list (char M)) : bool :=
  match q, s with
  | [], _ => true
  | _ :: _, [] => false
  | x :: q', y :: s' =>
      if same_char M x y then subseq M q' s' else subseq M q s'
  end.

Definition fuzzy_match (M : Matcher) (q s : string) : bool :=
  subseq M (chars M q) (chars M s).

Section Ranking.
Variable M : Matcher.
Variables (q : string) (data : list string).

Definition score_at (i : nat) : Z := from_option (score M q) 0%Z (data !! i).

(** [i] is listed before [j]: by the higher score, and at equal scores by
    the position in [data]. *)
Definition before (i j : nat) : Prop :=
  (score_at j < score_at i)%Z ∨ (score_at i = score_at j ∧ (i < j)%nat).

(** [idxs] lists exactly the positions of the entries of [data] that match
    [q], by descending score, ties in the order of [data]. *)
Definition ranked (idxs : list nat) : Prop :=
  (∀ i, i ∈ idxs ↔ ∃ s, data !! i = Some s ∧ fuzzy_match M q s = true)
  ∧ StronglySorted before idxs.

(** Insertion before the first index of a strictly lower score. *)
Fixpoint rank_insert (i : nat) (l : list nat) : list nat :=
  match l with
  | [] => [i]
  | j :: l' =>
      if (score_at j <? score_at i)%Z then i :: l else j :: rank_insert i l'
  end.

Definition matching : list nat :=
  List.filter (λ i, from_option (fuzzy_match M q) false (data !! i)) (seq 0 (length data)).

Definition rank_all : list nat :=
  fold_left (λ acc i, rank_insert i acc) matching [].
End Ranking.

(** Modelled from the spec: [fuzzy.Find], of the imported package
    github.com/sahilm/fuzzy, which is not among the sources. For a query
    that is not empty it returns the positions of the entries in which
    every character of the query occurs, in order, listed by descending
    score, ties in the order of the corpus; the characters, their
    comparison and the score are the matcher's. *)
Definition FindContract (T : Toolkit) (M : Matcher) : Prop :=
  ∀ q data, q ≠ "" → ranked M q data (Find q data).

(** A small toolkit to run the session on concrete inputs: the characters
    of a text are its bytes, compared with ASCII letter case folded, and
    candidates are ranked by how few characters they have; a focused input
    appends the typed characters; the list cursor moves with "up" and
    "down" and stays where it is when the items are replaced or the list
    resized; the list asks to quit on "esc" and for nothing on another
    key. *)
Definition short_first (q s : string) : Z := (- Z.of_nat (String.length s))%Z.

Definition byte_matcher : Matcher :=
  {| char := ascii;
     chars := list_ascii_of_string;
     same_char := λ x y, N.eqb (nocase_byte x) (nocase_byte y);
     score := short_first |}.

Definition reference_toolkit : Toolkit :=
  {| Find := λ q data, match q with "" => [] | _ => rank_all byte_matcher q data end;
     input_Update := λ k t,
       if Focused t && bool_decide (KType k = KeyRunes)
       then mkInput (Value t +:+ Runes k) true else t;
     list_Update := λ k n i,
       if bool_decide (KeyString k = "up") then pred i
       else if bool_decide (KeyString k = "down") then (if decide (S i < n)%nat then S i else i)
       else i;
     list_Cmd := λ k n i, if bool_decide (KeyString k = "esc") then QuitCmd else NoCmd;
     list_SetItems := λ n i, i;
     list_SetSize := λ wd ht n i, i |}.

(** ** Well-formed states *)

(** A header fits the heap: its array is allocated with as many cells as
    the capacity, and the length is within the capacity. *)
Definition slice_wf (h : Heap) (s : slice) : Prop :=
  match s_arr s with
  | None => s_len s = 0%nat ∧ s_cap s = 0%nat
  | Some a => ∃ arr, h !! a = Some arr ∧ length arr = s_cap s ∧ (s_len s ≤ s_cap s)%nat
  end.

Definition pair_of (u : User) : string * string := (Name u, Email u).

Definition count_pair (name email : string) (s : Store) : nat :=
  length (List.filter (same_pair name email) (rows s)).

(** What the schema keeps true of the table: [UNIQUE(name, email)], the
    primary key, and AUTOINCREMENT's counter at or above every rowid. *)
Definition store_wf (s : Store) : Prop :=
  NoDup (pair_of <$> rows s)
  ∧ NoDup (ID <$> rows s)
  ∧ Forall (λ u, (ID u ≤ sqlite_sequence s)%Z) (rows s).

(** ** The view the specification asks for *)

(** The filter applied to a corpus: all of it for a blank query, else the
    entries the matcher returns, in its order. *)
Definition spec_view `{Toolkit} (q : string) (corpus : list userItem) : list userItem :=
  if bool_decide (TrimSpace q = "") then corpus
  else omap (λ i, corpus !! i) (Find q (FilterValue <$> corpus)).

(** [visibleIdentities] is the filter applied to [allIdentities] with the
    text of the filter input. *)
Definition view_in_sync `{Toolkit} (m : model) (w : World) : Prop :=
  ∃ corpus,
    items_of (heap w) (all (fuzzy m)) = Some (Some <$> corpus)
    ∧ items_of (heap w) (view (fuzzy m)) = Some (Some <$> spec_view (Value (filter_ m)) corpus).

(** The session after a sequence of key presses, each with its
    environment. *)
Fixpoint session `{Toolkit} (evs : list (KeyMsg * Env)) (m : model) (w : World)
  : option (model * World) :=
  match evs with
  | [] => Some (m, w)
  | (k, env) :: evs' =>
      '(m', _, w') ← Update (KeyPress k) env m w;
      session evs' m' w'
  end.

(** The messages the program can put in [errMsg] in an environment,
    whatever the event. *)
Definition raised (env : Env) (e : string) : Prop :=
  e = "invalid name/email"
  ∨ e = "not inside a git repo (local set aborted)"
  ∨ insert_fault env = Some e
  ∨ (∃ eo, (name_fault env = Some eo ∨ email_fault env = Some eo) ∧ e = git_error eo).

(** The reading of "cleared whenever a new action begins", at its most
    generous: after an event, [errMsg] is empty unless it is one of these
    messages. *)
Definition error_cleared_by_each_action `{Toolkit} : Prop :=
  ∀ msg env m w m' c w',
    Update msg env m w = Some (m', c, w') →
    errMsg m' = "" ∨ raised env (errMsg m').

(** The error an event raises, with what makes the event raise it: a
    submit of a form whose buffers fail the validation; a submit of valid
    buffers whose insert fails, with the error of the insert; a local
    apply on a selected identity outside a work tree; an apply on a
    selected identity, inside a work tree when it is local, with a
    [git config] write that fails, with the error of the first write that
    fails. *)
Inductive raises : Msg → Env → model → World → string → Prop :=
| raises_invalid k env m w :
    mode_ m ≠ modeList → KType k = KeyEnter → Focused (form1 m) = false →
    TrimSpace (Value (form1 m)) = ""
    ∨ TrimSpace (Value (form2 m)) = ""
    ∨ Contains (TrimSpace (Value (form2 m))) "@" = false →
    raises (KeyPress k) env m w "invalid name/email"
| raises_insert k env m w e :
    mode_ m ≠ modeList → KType k = KeyEnter → Focused (form1 m) = false →
    TrimSpace (Value (form1 m)) ≠ ""
    ∧ TrimSpace (Value (form2 m)) ≠ ""
    ∧ Contains (TrimSpace (Value (form2 m))) "@" = true →
    insert_fault env = Some e →
    raises (KeyPress k) env m w e
| raises_outside k env m w it :
    mode_ m = modeList →
    KType k = KeyEnter ∨ Matches k (Local (keys m)) = true →
    SelectedItem (list_ m) (heap w) = Some (Some it) →
    in_repo env = false →
    raises (KeyPress k) env m w "not inside a git repo (local set aborted)"
| raises_git k env m w it eo :
    mode_ m = modeList →
    ((KType k = KeyEnter ∨ Matches k (Local (keys m)) = true) ∧ in_repo env = true)
    ∨ Matches k (Global (keys m)) = true →
    SelectedItem (list_ m) (heap w) = Some (Some it) →
    name_fault env = Some eo ∨ (name_fault env = None ∧ email_fault env = Some eo) →
    raises (KeyPress k) env m w (git_error eo).

(** The status message an action sets, with the event that is this
    action: a delete, a submit, a cancel, the opening of a form, an apply
    of the selected identity in a scope. *)
Inductive announces : Msg → model → World → string → Prop :=
| announces_deleted k m w :
    mode_ m = modeList → Matches k (Delete (keys m)) = true →
    announces (KeyPress k) m w "deleted"
| announces_saved k m w :
    mode_ m ≠ modeList → KType k = KeyEnter → Focused (form1 m) = false →
    announces (KeyPress k) m w "saved"
| announces_cancelled k m w :
    mode_ m ≠ modeList → Matches k (Clear (keys m)) = true →
    announces (KeyPress k) m w "cancelled"
| announces_add k m w :
    mode_ m = modeList → Matches k (Add (keys m)) = true →
    announces (KeyPress k) m w "add user: enter to next/save, esc to cancel"
| announces_edit k m w it :
    mode_ m = modeList → Matches k (Edit (keys m)) = true →
    SelectedItem (list_ m) (heap w) = Some (Some it) →
    announces (KeyPress k) m w "edit user: enter cycles fields, esc cancels"
| announces_set k m w it scope :
    mode_ m = modeList →
    (scope = "local" ∧ (KType k = KeyEnter ∨ Matches k (Local (keys m)) = true))
    ∨ (scope = "global" ∧ Matches k (Global (keys m)) = true) →
    SelectedItem (list_ m) (heap w) = Some (Some it) →
    announces (KeyPress k) m w
      ("set " +:+ scope +:+ ": " +:+ Name it +:+ " <" +:+ Email it +:+ ">").

(** An environment in which nothing fails, inside or outside a work
    tree. *)
Definition calm (inside : bool) : Env := mkEnv None None None inside None None.

Definition rune (s : string) : KeyMsg := mkKey KeyRunes s false.
Definition press (t : KeyType) : KeyMsg := mkKey t "" false.

Definition empty_world : World :=
  mkWorld (mkStore [] 0 0) [] (mkGit None None None None) [].

(** ** A session with two identities *)

Definition alice : User := mkUser 1 "Alice Smith" "a@x.com".
Definition bob : User := mkUser 2 "Bob Jones" "b@x.com".

Definition two_users : World :=
  mkWorld (mkStore [alice; bob] 2 2) [] (mkGit None None None None) [].

(** The program started on the store of [w], as [main] does after a load
    without error, then fed the key presses, with the reference
    toolkit. *)
Definition started (w : World) (evs : list (KeyMsg * Env)) : option (model * World) :=
  '(m, w') ← @initialModel reference_toolkit (allUsers None (db w)).1 w;
  @session reference_toolkit evs m w'.

Definition quietly (k : KeyMsg) : KeyMsg * Env := (k, calm true).

(** Environments in which the writes fail, or the reads, or the delete
    alone. *)
Definition delete_locked : Env := mkEnv (Some "database is locked") None None true None None.
Definition locked : Env := mkEnv (Some "database is locked") (Some "database is locked") None true None None.
Definition unreadable : Env := mkEnv None None (Some (QueryFails "disk I/O error")) true None None.

(** The keys that fill the add form with a new identity, up to the
    submit. *)
Definition add_cy : list (KeyMsg * Env) :=
  [quietly (rune "a"); quietly (rune "Cy"); quietly (press KeyEnter); quietly (rune "c@x.com")].

(** ** Reading the git configuration at start-up *)

(** What [CombinedOutput] gives for one [git config] read: the output of
    the subprocess, and whether it failed. *)
Record Output := mkOutput { out_text : string; out_failed : bool }.

(** The two reads of one [readGitUser]. *)
Record Reads := mkReads { name_read : Output; email_read : Output }.

(** [User{}] *)
Definition no_user : User := mkUser 0 "" "".

(** [readGitUser(scope)]: for the scope "local" the work tree is checked
    first; both reads are then run, whatever the first one gave, and
    their outputs trimmed. [env] decides the check. *)
Definition readGitUser (env : Env) (r : Reads) (scope : string) (w : World)
  : World * (User * option error) :=
  let args := "git" :: "config" :: (if bool_decide (scope = "global") then ["--global"] else []) in
  let '(outside, w0) :=
    if bool_decide (scope = "local") then
      let '(inside, w0) := gitInRepo env w in (negb inside, w0)
    else (false, w) in
  if outside then (w0, (no_user, Some "not in a git repo"))
  else
    let w1 := run (args ++ ["user.name"]) w0 in
    let w2 := run (args ++ ["user.email"]) w1 in
    if out_failed (name_read r) || out_failed (email_read r)
    then (w2, (no_user, Some ("no " +:+ scope +:+ " git user configured")))
    else (w2, (mkUser 0 (TrimSpace (out_text (name_read r)))
                        (TrimSpace (out_text (email_read r))), None)).

(** What the environment decides during [hydrateFromGit]: for the global
    user, the reads and the insert ([global_env]); the check of
    [hydrateFromGit] itself and the insert of the local user
    ([repo_env]); the check inside [readGitUser("local")] ([local_env])
    and its reads. *)
Record Startup := mkStartup {
  global_env : Env;
  global_reads : Reads;
  repo_env : Env;
  local_env : Env;
  local_reads : Reads
}.

(** [err == nil && u.Name != "" && u.Email != ""] *)
Definition usable (r : User * option error) : bool :=
  bool_decide (r.2 = None)
  && negb (bool_decide (Name r.1 = "")) && negb (bool_decide (Email r.1 = "")).

(** The guarded insert of [hydrateFromGit]; its result and error are
    dropped. *)
Definition import_user (f : option error) (r : User * option error) (w : World) : World :=
  if usable r then set_db (insertUser f (Name r.1) (Email r.1) (db w)).1 w else w.

Definition hydrateFromGit (st : Startup) (w : World) : World :=
  let '(w1, r) := readGitUser (global_env st) (global_reads st) "global" w in
  let w2 := import_user (insert_fault (global_env st)) r w1 in
  let '(inside, w3) := gitInRepo (repo_env st) w2 in
  if inside then
    let '(w4, r) := readGitUser (local_env st) (local_reads st) "local" w3 in
    import_user (insert_fault (repo_env st)) r w4
  else w3.

(** The rows an import adds: none, or one row with the fields of the user
    read, which are not empty. *)
Definition hydrated_row (u : User) : Prop :=
  Name u ≠ "" ∧ Email u ≠ "" ∧ TrimSpace (Name u) = Name u ∧ TrimSpace (Email u) = Email u.

(** ** States the session can be in *)

(** The matcher returns positions of its input. *)
Definition in_range (T : Toolkit) : Prop :=
  ∀ q data, Forall (λ i, (i < length data)%nat) (Find q data).

(** The heap [h'] has every array of [h], with the same number of cells,
    and no cell that held an item has lost it. *)
Definition heap_ext (h h' : Heap) : Prop :=
  ∀ a arr, h !! a = Some arr →
    ∃ arr', h' !! a = Some arr' ∧ length arr' = length arr
            ∧ ∀ i, is_Some (arr !! i ≫= id) → is_Some (arr' !! i ≫= id).

(** A slice that fits the heap and shows no nil item. *)
Definition shows_items (h : Heap) (s : slice) : Prop :=
  slice_wf h s ∧ ∃ l, items_of h s = Some l ∧ Forall is_Some l.

(** What every state of a session satisfies: the key map is the one of
    [newKeymap], the list was given the view of the filter, and the view
    and the corpus fit the heap, the corpus without nil items. *)
Definition session_ok (m : model) (w : World) : Prop :=
  keys m = newKeymap
  ∧ items (list_ m) = view (fuzzy m)
  ∧ slice_wf (heap w) (view (fuzzy m))
  ∧ shows_items (heap w) (all (fuzzy m)).

(** The ten bindings of a key map. *)
Definition bindings (km : keymap) : list (list string) :=
  [Quit km; Add km; Edit km; Delete km; Global km; Local km; Filter km; Clear km;
   Help km; Enter km].

(** The position of the scope's entries in the git configuration. *)
Definition scope_name (global : bool) (g : GitConfig) : option string :=
  if global then global_name g else local_name g.
Definition scope_email (global : bool) (g : GitConfig) : option string :=
  if global then global_email g else local_email g.

(** ** Fixtures *)

Definition carl_reads : Reads := mkReads (mkOutput "Carl
" false) (mkOutput "c@x.com
" false).
Definition unset_reads : Reads := mkReads (mkOutput "" true) (mkOutput "" true).

(** An environment in which the delete succeeds and the insert fails. *)
Definition full_disk : Env :=
  mkEnv None (Some "database or disk is full") None true None None.

(** Global author unset, local author Carl, inside a work tree. *)
Definition carl_startup : Startup :=
  mkStartup (calm true) unset_reads (calm true) (calm true) carl_reads.

(** * Properties *)

(** ** Strings *)

Lemma TrimSpace_empty : TrimSpace "" = "".
Proof. reflexivity. Qed.

Lemma Contains_at s : Contains s "@" = true ↔ "@"%char ∈ list_ascii_of_string s.
Proof.
  induction s as [|a s IH].
  - split; [discriminate | intros Hin; inversion Hin].
  - change (Contains (String a s) "@")
      with ((if ascii_dec "@" a then String.prefix "" s else false) || Contains s "@").
    change (list_ascii_of_string (String a s)) with (a :: list_ascii_of_string s).
    rewrite elem_of_cons, <- IH.
    destruct (ascii_dec "@" a) as [<-|Hne].
    + destruct s; simpl; tauto.
    + simpl. split; [tauto | intros [?|?]; congruence].
Qed.

Lemma asciiSpace_not_at c : asciiSpace c = true → c ≠ "@"%char.
Proof. intros Hc ->. discriminate Hc. Qed.

Lemma space2_not_at c0 c1 :
  space2 c0 c1 = true → c0 ≠ "@"%char ∧ c1 ≠ "@"%char.
Proof.
  unfold space2. intros Hc. split; intros ->.
  - discriminate Hc.
  - destruct (byte_is 194 c0); discriminate Hc.
Qed.

Lemma space3_not_at c0 c1 c2 :
  space3 c0 c1 c2 = true → c0 ≠ "@"%char ∧ c1 ≠ "@"%char ∧ c2 ≠ "@"%char.
Proof.
  unfold space3. intros Hc. repeat split; intros ->.
  - discriminate Hc.
  - destruct (byte_is 225 c0), (byte_is 226 c0), (byte_is 227 c0); discriminate Hc.
  - destruct (byte_is 225 c0), (byte_is 226 c0), (byte_is 227 c0),
      (byte_is 154 c1), (byte_is 128 c1), (byte_is 129 c1); discriminate Hc.
Qed.

Section TrimKeepsAt.
Abbreviation at_in l := ("@"%char ∈ (l : list ascii)).

Lemma at_in_cons c l : c ≠ "@"%char → at_in (c :: l) ↔ at_in l.
Proof. intros Hc. rewrite elem_of_cons. split; [intros [?|?]; congruence | auto]. Qed.

Lemma trimLeft_at_bounded n : ∀ l, (length l ≤ n)%nat → at_in (trimLeft l) ↔ at_in l.
Proof.
  induction n as [|n IH]; intros l Hn.
  { destruct l; [reflexivity | simpl in Hn; lia]. }
  destruct l as [|c0 s1]; [reflexivity|]. simpl in Hn. simpl.
  destruct (asciiSpace c0) eqn:H0.
  { rewrite IH by lia. symmetry. apply at_in_cons, asciiSpace_not_at, H0. }
  destruct s1 as [|c1 s2]; [reflexivity|]. simpl in Hn.
  destruct (space2 c0 c1) eqn:H1.
  { apply space2_not_at in H1 as [? ?].
    rewrite IH by lia. rewrite !at_in_cons by done. reflexivity. }
  destruct s2 as [|c2 s3]; [reflexivity|]. simpl in Hn.
  destruct (space3 c0 c1 c2) eqn:H2; [|reflexivity].
  apply space3_not_at in H2 as (? & ? & ?).
  rewrite IH by lia. rewrite !at_in_cons by done. reflexivity.
Qed.

Lemma trimLeftRev_at_bounded n :
  ∀ l, (length l ≤ n)%nat → at_in (trimLeftRev l) ↔ at_in l.
Proof.
  induction n as [|n IH]; intros l Hn.
  { destruct l; [reflexivity | simpl in Hn; lia]. }
  destruct l as [|c0 s1]; [reflexivity|]. simpl in Hn. simpl.
  destruct (asciiSpace c0) eqn:H0.
  { rewrite IH by lia. symmetry. apply at_in_cons, asciiSpace_not_at, H0. }
  destruct s1 as [|c1 s2]; [reflexivity|]. simpl in Hn.
  destruct (space2 c1 c0) eqn:H1.
  { apply space2_not_at in H1 as [? ?].
    rewrite IH by lia. rewrite !at_in_cons by done. reflexivity. }
  destruct s2 as [|c2 s3]; [reflexivity|]. simpl in Hn.
  destruct (space3 c2 c1 c0) eqn:H2; [|reflexivity].
  apply space3_not_at in H2 as (? & ? & ?).
  rewrite IH by lia. rewrite !at_in_cons by done. reflexivity.
Qed.

Lemma trim_at l : at_in (trimRight (trimLeft l)) ↔ at_in l.
Proof.
  unfold trimRight. rewrite list_elem_of_In, <- in_rev, <- list_elem_of_In.
  rewrite (trimLeftRev_at_bounded _ _ (Nat.le_refl _)).
  rewrite list_elem_of_In, <- in_rev, <- list_elem_of_In.
  apply (trimLeft_at_bounded _ _ (Nat.le_refl _)).
Qed.
End TrimKeepsAt.

(** Trimming neither adds nor removes an "@". *)
Lemma Contains_TrimSpace s : Contains (TrimSpace s) "@" = Contains s "@".
Proof.
  apply eq_true_iff_eq. rewrite !Contains_at. unfold TrimSpace.
  rewrite list_ascii_of_string_of_list_ascii. apply trim_at.
Qed.

Lemma trimLeft_fixed l : lead l = false → trimLeft l = l.
Proof.
  destruct l as [|c0 [|c1 [|c2 s3]]]; simpl; [done|..].
  - rewrite orb_false_r. by intros ->.
  - intros [-> [-> _]%orb_false_elim]%orb_false_elim. done.
  - intros [-> [-> ->]%orb_false_elim]%orb_false_elim. done.
Qed.

Lemma trimLeftRev_fixed l : trail l = false → trimLeftRev l = l.
Proof.
  destruct l as [|c0 [|c1 [|c2 s3]]]; simpl; [done|..].
  - rewrite orb_false_r. by intros ->.
  - intros [-> [-> _]%orb_false_elim]%orb_false_elim. done.
  - intros [-> [-> ->]%orb_false_elim]%orb_false_elim. done.
Qed.

Lemma trimLeft_lead_bounded n : ∀ l, (length l ≤ n)%nat → lead (trimLeft l) = false.
Proof.
  induction n as [|n IH]; intros l Hn.
  { destruct l; [reflexivity | simpl in Hn; lia]. }
  destruct l as [|c0 s1]; [reflexivity|]. simpl in Hn.
  cbn [trimLeft]. destruct (asciiSpace c0) eqn:H0; [apply IH; lia|].
  destruct s1 as [|c1 s2]; [by simpl; rewrite H0|]. simpl in Hn.
  destruct (space2 c0 c1) eqn:H1; [apply IH; lia|].
  destruct s2 as [|c2 s3]; [by simpl; rewrite H0, H1|]. simpl in Hn.
  destruct (space3 c0 c1 c2) eqn:H2; [apply IH; lia|].
  simpl. by rewrite H0, H1, H2.
Qed.

Lemma trimLeftRev_trail_bounded n :
  ∀ l, (length l ≤ n)%nat → trail (trimLeftRev l) = false ∧ ∃ p, l = p ++ trimLeftRev l.
Proof.
  induction n as [|n IH]; intros l Hn.
  { destruct l; [by split; [|exists []] | simpl in Hn; lia]. }
  destruct l as [|c0 s1]; [by split; [|exists []]|]. simpl in Hn.
  cbn [trimLeftRev]. destruct (asciiSpace c0) eqn:H0.
  { destruct (IH s1) as [? [p Hp]]; [lia|]. split; [done|].
    exists (c0 :: p). simpl. by rewrite <- Hp. }
  destruct s1 as [|c1 s2]; [split; [by simpl; rewrite H0 | by exists []]|]. simpl in Hn.
  destruct (space2 c1 c0) eqn:H1.
  { destruct (IH s2) as [? [p Hp]]; [lia|]. split; [done|].
    exists (c0 :: c1 :: p). simpl. by rewrite <- Hp. }
  destruct s2 as [|c2 s3]; [split; [by simpl; rewrite H0, H1 | by exists []]|]. simpl in Hn.
  destruct (space3 c2 c1 c0) eqn:H2.
  { destruct (IH s3) as [? [p Hp]]; [lia|]. split; [done|].
    exists (c0 :: c1 :: c2 :: p). simpl. by rewrite <- Hp. }
  split; [simpl; by rewrite H0, H1, H2 | by exists []].
Qed.

Lemma lead_prefix l x : lead l = true → lead (l ++ x) = true.
Proof.
  destruct l as [|c0 [|c1 [|c2 s3]]]; simpl; [done|..].
  - rewrite orb_false_r. by intros ->.
  - rewrite orb_false_r. destruct (asciiSpace c0); [done|]. simpl. by intros ->.
  - done.
Qed.

Lemma trim_idempotent l :
  let t := trimRight (trimLeft l) in trimRight (trimLeft t) = t.
Proof.
  intros t. subst t. unfold trimRight.
  set (l1 := trimLeft l).
  destruct (trimLeftRev_trail_bounded _ (rev l1) (Nat.le_refl _)) as [Htrail [p Hp]].
  set (r := trimLeftRev (rev l1)) in *.
  assert (Hl1 : l1 = rev r ++ rev p).
  { rewrite <- rev_app_distr, <- Hp. by rewrite rev_involutive. }
  assert (Hlead : lead (rev r) = false).
  { destruct (lead (rev r)) eqn:E; [|done].
    apply (lead_prefix _ (rev p)) in E. rewrite <- Hl1 in E.
    subst l1. by rewrite (trimLeft_lead_bounded _ _ (Nat.le_refl _)) in E. }
  rewrite (trimLeft_fixed _ Hlead), rev_involutive.
  by rewrite (trimLeftRev_fixed _ Htrail).
Qed.

(** Trimming a trimmed string changes nothing. *)
Lemma TrimSpace_idempotent s : TrimSpace (TrimSpace s) = TrimSpace s.
Proof.
  unfold TrimSpace. rewrite list_ascii_of_string_of_list_ascii.
  f_equal. apply trim_idempotent.
Qed.

(** ** The store *)

Lemma same_pair_spec n e u : same_pair n e u = true ↔ pair_of u = (n, e).
Proof.
  unfold same_pair, pair_of. rewrite andb_true_iff, !bool_decide_eq_true.
  split; [intros [-> ->]; reflexivity | intros [= -> ->]; done].
Qed.

Lemma has_pair_spec n e s : has_pair n e s = true ↔ (n, e) ∈ pair_of <$> rows s.
Proof.
  unfold has_pair. rewrite existsb_exists, list_elem_of_fmap.
  split.
  - intros (u & Hin & Hu). exists u. apply same_pair_spec in Hu.
    split; [done | by apply list_elem_of_In].
  - intros (u & Hu & Hin). exists u.
    split; [by apply list_elem_of_In | by apply same_pair_spec].
Qed.

Lemma filter_pair_absent n e (l : list User) :
  (n, e) ∉ pair_of <$> l → List.filter (same_pair n e) l = [].
Proof.
  induction l as [|u l IH]; [done|]. rewrite fmap_cons, not_elem_of_cons.
  intros [Hu Hl]. simpl. destruct (same_pair n e u) eqn:E.
  - apply same_pair_spec in E. congruence.
  - auto.
Qed.

Lemma filter_pair_present n e (l : list User) :
  NoDup (pair_of <$> l) → (n, e) ∈ pair_of <$> l →
  length (List.filter (same_pair n e) l) = 1%nat.
Proof.
  induction l as [|u l IH]; [intros _ Hin; inversion Hin|].
  rewrite fmap_cons, NoDup_cons, elem_of_cons. intros [Hu Hnd] Hin. simpl.
  destruct (same_pair n e u) eqn:E.
  - apply same_pair_spec in E. rewrite E in Hu.
    by rewrite (filter_pair_absent _ _ _ Hu).
  - destruct Hin as [Heq|Hin]; [|auto].
    symmetry in Heq. apply same_pair_spec in Heq. congruence.
Qed.

Lemma insertUser_wf f name email s : store_wf s → store_wf (insertUser f name email s).1.
Proof.
  intros (Hp & Hi & Hs). unfold insertUser.
  destruct f; [done|].
  destruct (has_pair _ _ s) eqn:E; simpl.
  { repeat split; [done..|]. simpl.
    eapply Forall_impl; [exact Hs | simpl; intros; lia]. }
  assert (Hfresh : (sqlite_sequence s + 1)%Z ∉ ID <$> rows s).
  { intros (u & Hu & Hin)%list_elem_of_fmap.
    rewrite Forall_forall in Hs. specialize (Hs u Hin). lia. }
  repeat split; simpl.
  - rewrite fmap_app. apply NoDup_app. repeat split; [done| |apply NoDup_singleton].
    intros p Hin ->%list_elem_of_singleton.
    change (pair_of _) with (TrimSpace name, TrimSpace email) in Hin.
    apply has_pair_spec in Hin. congruence.
  - rewrite fmap_app. apply NoDup_app. repeat split; [done| |apply NoDup_singleton].
    intros i Hin ->%list_elem_of_singleton. done.
  - apply Forall_app. split.
    + eapply Forall_impl; [exact Hs | simpl; intros; lia].
    + apply Forall_singleton. simpl. lia.
Qed.

Lemma deleteUser_wf f id s : store_wf s → store_wf (deleteUser f id s).1.
Proof.
  intros (Hp & Hi & Hs). unfold deleteUser. destruct f; [done|]. simpl.
  assert (Hsub : filter (λ u, ID u ≠ id) (rows s) `sublist_of` rows s)
    by apply sublist_filter.
  repeat split; simpl.
  - eapply sublist_NoDup; [exact Hp|]. by apply fmap_sublist.
  - eapply sublist_NoDup; [exact Hi|]. by apply fmap_sublist.
  - apply Forall_forall. intros u Hu%list_elem_of_filter.
    rewrite Forall_forall in Hs. apply Hs, Hu.
Qed.

Lemma deleteUser_gone id s u : u ∈ rows (deleteUser None id s).1 → ID u ≠ id.
Proof. simpl. by intros [? _]%list_elem_of_filter. Qed.

(** After an insert that did not fail, the trimmed pair is in the table,
    whether the statement wrote it or ignored it. *)
Lemma insertUser_has_pair name email s :
  has_pair (TrimSpace name) (TrimSpace email) (insertUser None name email s).1 = true.
Proof.
  unfold insertUser. cbv zeta. destruct (has_pair _ _ s) eqn:E; [exact E|].
  apply has_pair_spec. simpl. rewrite fmap_app, elem_of_app. right.
  apply list_elem_of_singleton. reflexivity.
Qed.

Lemma count_pair_one n e s : store_wf s → has_pair n e s = true → count_pair n e s = 1%nat.
Proof.
  intros (Hp & _) Hhas. apply filter_pair_present; [exact Hp | by apply has_pair_spec].
Qed.

(** What an insert does to the rows, and what an ignored one leaves. *)
Lemma insertUser_ignored name email s :
  has_pair (TrimSpace name) (TrimSpace email) s = true →
  insertUser None name email s
  = (mkStore (rows s) (sqlite_sequence s + 1) (last_insert_rowid s),
     (last_insert_rowid s, None)).
Proof. intros Hhas. unfold insertUser. cbv zeta. by rewrite Hhas. Qed.


(** C6. [insertUser] stores the trimmed fields, and a second insert of a
    pair with the same trimmed fields writes no row and returns no error:
    the rows and the connection's last insert rowid are what the first
    insert left, and exactly one row holds the pair. The ignored insert
    spends a rowid all the same: the AUTOINCREMENT counter is one higher
    after it. *)
Theorem insertUser_idempotent (s : Store) (name email name' email' : string) :
  store_wf s →
  TrimSpace name' = TrimSpace name →
  TrimSpace email' = TrimSpace email →
  let s1 := (insertUser None name email s).1 in
  let r2 := insertUser None name' email' s1 in
  (∃ u, u ∈ rows s1 ∧ Name u = TrimSpace name ∧ Email u = TrimSpace email)
  ∧ rows r2.1 = rows s1
  ∧ last_insert_rowid r2.1 = last_insert_rowid s1
  ∧ sqlite_sequence r2.1 = (sqlite_sequence s1 + 1)%Z
  ∧ r2.2.2 = None
  ∧ count_pair (TrimSpace name) (TrimSpace email) r2.1 = 1%nat.
Proof.
  intros Hwf Hn He s1 r2.
  assert (Hwf1 : store_wf s1) by by apply insertUser_wf.
  assert (Hhas : has_pair (TrimSpace name) (TrimSpace email) s1 = true)
    by apply insertUser_has_pair.
  assert (Hr2 : r2 = (mkStore (rows s1) (sqlite_sequence s1 + 1) (last_insert_rowid s1),
                      (last_insert_rowid s1, None))).
  { subst r2. apply insertUser_ignored. by rewrite Hn, He. }
  rewrite Hr2. simpl. split; [|repeat split].
  - apply has_pair_spec, list_elem_of_fmap in Hhas as (u & [= Hu1 Hu2] & Hin).
    by exists u.
  - change (count_pair (TrimSpace name) (TrimSpace email) s1 = 1%nat).
    by apply count_pair_one.
Qed.


(** ** Slices *)

Lemma items_of_length h s l :
  slice_wf h s → items_of h s = Some l → length l = s_len s.
Proof.
  unfold slice_wf, items_of. destruct s as [[a|] n c]; simpl.
  - intros _. destruct (h !! a) as [arr|]; simpl; [|done].
    destruct (decide (n ≤ length arr)%nat); [|done].
    intros [= <-]. by apply length_take_le.
  - by intros [-> _] [= <-].
Qed.

Lemma slice_wf_nil h : slice_wf h nil_slice.
Proof. done. Qed.

Lemma slice_wf_reslice0 h s : slice_wf h s → slice_wf h (reslice0 s).
Proof.
  unfold slice_wf, reslice0. destruct s as [[a|] n c]; simpl; [|tauto].
  intros (arr & ? & ? & ?). exists arr. repeat split; [done..|lia].
Qed.

Lemma items_of_reslice0 h s : slice_wf h s → items_of h (reslice0 s) = Some [].
Proof.
  unfold slice_wf, items_of, reslice0. destruct s as [[a|] n c]; simpl; [|done].
  intros (arr & -> & _ & _). simpl. by rewrite take_0.
Qed.

Lemma growcap_gt c : (c < growcap c)%nat.
Proof. destruct c; simpl; lia. Qed.

(** One [append] shows the old elements followed by the new one, whether
    it wrote in place or moved to a fresh array. *)
Lemma items_of_array h a arr n c :
  h !! a = Some arr → (n ≤ length arr)%nat →
  items_of h (mkSlice (Some a) n c) = Some (take n arr).
Proof.
  intros Ha Hn. unfold items_of. cbn [s_arr s_len]. rewrite Ha. simpl.
  by rewrite decide_True.
Qed.

Lemma append_items h s x l :
  slice_wf h s → items_of h s = Some l →
  ∃ h' s', append s x h = Some (h', s')
           ∧ slice_wf h' s' ∧ items_of h' s' = Some (l ++ [x]).
Proof.
  intros Hwf Hl. pose proof (items_of_length _ _ _ Hwf Hl) as Hlen.
  unfold append. destruct s as [arr_s n c]. simpl in *.
  destruct (decide (n < c)%nat) as [Hlt|Hge].
  - destruct arr_s as [a|]; [|unfold slice_wf in Hwf; simpl in Hwf; lia].
    destruct Hwf as (arr & Ha & Hc & Hn). simpl in *.
    rewrite (items_of_array _ _ _ _ _ Ha) in Hl by lia. injection Hl as <-.
    rewrite Ha. simpl. destruct (decide (n < length arr)%nat); [|lia].
    eexists _, _. split; [reflexivity|].
    assert (Ha' : <[a:=<[n:=x]> arr]> h !! a = Some (<[n:=x]> arr)).
    { apply list_lookup_insert_eq. by eapply lookup_lt_Some. }
    split.
    + exists (<[n:=x]> arr). simpl. rewrite length_insert. repeat split; [done..|lia].
    + rewrite (items_of_array _ _ _ _ _ Ha') by (rewrite length_insert; lia).
      f_equal. erewrite take_S_r; [|by apply list_lookup_insert_eq].
      by rewrite take_insert_ge.
  - rewrite Hl. simpl. eexists _, _. split; [reflexivity|].
    assert (Hnc : n = c).
    { unfold slice_wf in Hwf. simpl in Hwf.
      destruct arr_s; [destruct Hwf as (? & ? & ? & ?)|]; lia. }
    pose proof (growcap_gt c).
    assert (Hnew : (h ++ [l ++ x :: replicate (growcap c - S n) None]) !! length h
                   = Some (l ++ x :: replicate (growcap c - S n) None)).
    { by rewrite list_lookup_middle. }
    assert (Hsz : length (l ++ x :: replicate (growcap c - S n) None) = growcap c).
    { rewrite length_app. simpl. rewrite length_replicate. lia. }
    split.
    + eexists. simpl. split; [exact Hnew|]. split; [exact Hsz | lia].
    + rewrite (items_of_array _ _ _ _ _ Hnew) by lia.
      f_equal. rewrite cons_middle, app_assoc.
      apply take_app_length'. rewrite length_app. simpl. lia.
Qed.

Lemma append_all_items xs : ∀ h s l,
  slice_wf h s → items_of h s = Some l →
  ∃ h' s', append_all xs s h = Some (h', s')
           ∧ slice_wf h' s' ∧ items_of h' s' = Some (l ++ xs).
Proof.
  induction xs as [|x xs IH]; intros h s l Hwf Hl; simpl.
  - eexists _, _. rewrite app_nil_r. eauto.
  - destruct (append_items h s x l Hwf Hl) as (h1 & s1 & -> & Hwf1 & Hl1). simpl.
    destruct (IH h1 s1 _ Hwf1 Hl1) as (h2 & s2 & -> & ? & ?).
    eexists _, _. rewrite <- app_assoc in *. eauto.
Qed.

Lemma make_wf n h :
  slice_wf (make n h).1 (make n h).2 ∧ items_of (make n h).1 (make n h).2 = Some [].
Proof.
  unfold make. cbn [fst snd].
  assert (Hnew : (h ++ [replicate n (None : Item)]) !! length h = Some (replicate n None))
    by by rewrite list_lookup_middle.
  split.
  - eexists. split; [exact Hnew|]. simpl. rewrite length_replicate. lia.
  - rewrite (items_of_array _ _ _ _ _ Hnew) by lia. by rewrite take_0.
Qed.

(** The items built from a list of users are these users, in a slice that
    fits the heap. *)
Lemma items_of_users_items users h :
  ∃ h' s, items_of_users users h = Some (h', s)
          ∧ slice_wf h' s ∧ items_of h' s = Some (Some <$> users).
Proof.
  unfold items_of_users.
  destruct (make (length users) h) as [h0 s0] eqn:E.
  destruct (make_wf (length users) h) as [Hwf Hl]. rewrite E in Hwf, Hl.
  apply (append_all_items _ _ _ [] Hwf Hl).
Qed.

(** The loop over the matches shows the picked entries after what the
    view already had. *)
Lemma collect_items arr : ∀ ms h v l picked,
  slice_wf h v → items_of h v = Some l →
  mapM (λ i, snd <$> arr !! i) ms = Some picked →
  ∃ h' v', collect arr ms v h = Some (h', v')
           ∧ slice_wf h' v' ∧ items_of h' v' = Some (l ++ picked).
Proof.
  induction ms as [|i ms IH]; intros h v l picked Hwf Hl Hp; simpl in *.
  - injection Hp as <-. eexists _, _. rewrite app_nil_r. eauto.
  - destruct (arr !! i) as [kv|]; [|done]. simpl in *.
    destruct (mapM _ ms) as [rest|] eqn:Hrest; [|done]. simpl in Hp.
    injection Hp as <-.
    destruct (append_items h v kv.2 l Hwf Hl) as (h1 & v1 & -> & Hwf1 & Hl1). simpl.
    destruct (IH h1 v1 _ rest Hwf1 Hl1 eq_refl) as (h2 & v2 & -> & ? & ?).
    eexists _, _. rewrite <- app_assoc in *. eauto.
Qed.

(** While the capacity allows, the loop over the matches writes the picked
    entries into the array of the view, from its length on, and leaves the
    cells after them. *)
Lemma collect_in_place arr a c : ∀ ms n h cells picked,
  h !! a = Some cells → length cells = c → (n + length ms ≤ c)%nat →
  mapM (λ i, snd <$> arr !! i) ms = Some picked →
  collect arr ms (mkSlice (Some a) n c) h
  = Some (<[a := take n cells ++ picked ++ drop (n + length ms) cells]> h,
          mkSlice (Some a) (n + length ms) c).
Proof.
  induction ms as [|i ms IH]; intros n h cells picked Ha Hc Hn Hp.
  - injection Hp as <-. cbn [collect length].
    replace (n + 0)%nat with n by lia.
    rewrite app_nil_l, take_drop, list_insert_id by done. reflexivity.
  - cbn [collect]. change (mapM _ (i :: ms))
      with (y ← snd <$> arr !! i; k ← mapM (λ i, snd <$> arr !! i) ms; mret (y :: k)) in Hp.
    destruct (arr !! i) as [kv|]; [|done]. cbn [fmap option_fmap option_map mbind option_bind] in *.
    destruct (mapM _ ms) as [rest|] eqn:Hrest; [|done].
    injection Hp as <-. cbn [length] in Hn.
    unfold append. cbn [s_len s_cap s_arr mbind option_bind].
    destruct (decide (n < c)%nat); [|lia].
    rewrite Ha. cbn [mbind option_bind].
    destruct (decide (n < length cells)%nat); [|lia].
    cbn [mbind option_bind].
    assert (Ha' : <[a:=<[n:=kv.2]> cells]> h !! a = Some (<[n:=kv.2]> cells)).
    { apply list_lookup_insert_eq. by eapply lookup_lt_Some. }
    rewrite (IH (S n) _ _ rest Ha'); [|by rewrite length_insert|lia|done].
    rewrite list_insert_insert_eq.
    erewrite take_S_r; [|by apply list_lookup_insert_eq].
    rewrite take_insert_ge by lia. rewrite drop_insert_lt by lia.
    cbn [length]. replace (S n + length ms)%nat with (n + S (length ms))%nat by lia.
    by rewrite <- app_assoc.
Qed.

(** ** The fuzzy filter *)

Lemma mapM_keyed (corpus : list userItem) :
  mapM keyed (Some <$> corpus) = Some ((λ u, (FilterValue u, Some u)) <$> corpus).
Proof.
  induction corpus as [|u corpus IH]; [done|].
  rewrite fmap_cons. change (mapM keyed (Some u :: (Some <$> corpus)))
    with (y ← keyed (Some u); k ← mapM keyed (Some <$> corpus); mret (y :: k)).
  by rewrite IH.
Qed.

Lemma picked_entries (corpus : list userItem) ms :
  Forall (λ i, i < length corpus)%nat ms →
  mapM (λ i, snd <$> ((λ u, (FilterValue u, Some u)) <$> corpus) !! i) ms
  = Some (Some <$> omap (λ i, corpus !! i) ms)
  ∧ Forall2 (λ i u, corpus !! i = Some u) ms (omap (λ i, corpus !! i) ms).
Proof.
  induction 1 as [|i ms Hi _ [IH1 IH2]]; [by split; [|constructor]|].
  apply lookup_lt_is_Some in Hi as [u Hu].
  simpl. rewrite list_lookup_fmap, Hu. simpl. rewrite IH1. simpl.
  split; [done|]. by constructor.
Qed.

Section Filter.
Context `{T : Toolkit}.

(** [apply] leaves the corpus header alone and shows the view the
    specification asks for, computed on the corpus as it was when the call
    began, whatever the view shared with it. *)
Lemma apply_shows q fl h corpus :
  slice_wf h (view fl) →
  items_of h (all fl) = Some (Some <$> corpus) →
  (TrimSpace q ≠ "" →
   Forall (λ i, i < length corpus)%nat (Find q (FilterValue <$> corpus))) →
  ∃ fl' h', apply q fl h = Some (fl', h')
            ∧ query fl' = q ∧ all fl' = all fl
            ∧ items_of h' (view fl') = Some (Some <$> spec_view q corpus).
Proof.
  intros Hv Hall Hfind. unfold apply, spec_view.
  destruct (bool_decide (TrimSpace q = "")) eqn:Hq.
  { eexists _, _. split; [reflexivity|]. simpl. by repeat split. }
  apply bool_decide_eq_false in Hq. specialize (Hfind Hq).
  rewrite Hall. simpl. rewrite mapM_keyed. simpl.
  rewrite <- list_fmap_compose.
  change (fst ∘ _) with FilterValue.
  destruct (picked_entries corpus _ Hfind) as [Hpick _].
  destruct (collect_items _ _ h (reslice0 (view fl)) [] _
              (slice_wf_reslice0 _ _ Hv) (items_of_reslice0 _ _ Hv) Hpick)
    as (h' & v' & -> & _ & Hitems).
  simpl. eexists _, _. split; [reflexivity|]. by repeat split.
Qed.

(** C9. For every corpus and query, [apply] stores the query; a query
    that is blank after trimming shows the whole corpus in its order; any
    other query is handed as it is, with the texts "name <email>" of the
    corpus in their order, to the matcher, and the entries at the
    positions it returns are shown in the order it returns them: with the
    matcher's contract, exactly the entries whose text "name <email>"
    matches the query, by descending score, ties in corpus order. *)
Theorem apply_filters_and_ranks M q fl h corpus :
  FindContract T M →
  slice_wf h (view fl) →
  items_of h (all fl) = Some (Some <$> corpus) →
  let texts := (λ u, Name u +:+ " <" +:+ Email u +:+ ">") <$> corpus in
  ∃ fl' h' shown,
    apply q fl h = Some (fl', h')
    ∧ query fl' = q ∧ all fl' = all fl
    ∧ items_of h' (view fl') = Some (Some <$> shown)
    ∧ if bool_decide (TrimSpace q = "") then shown = corpus
      else ranked M q texts (Find q texts)
           ∧ Forall2 (λ i u, corpus !! i = Some u) (Find q texts) shown.
Proof.
  intros Hc Hv Hall texts.
  assert (Htexts : texts = FilterValue <$> corpus) by reflexivity.
  assert (Hq : TrimSpace q ≠ "" → q ≠ "") by (intros Hne ->; by apply Hne).
  assert (Hrange : TrimSpace q ≠ "" →
    Forall (λ i, i < length corpus)%nat (Find q (FilterValue <$> corpus))).
  { intros Hne. apply Forall_forall. intros i Hi.
    apply (Hc q _ (Hq Hne)) in Hi as (s & Hs & _).
    apply lookup_lt_Some in Hs. by rewrite length_fmap in Hs. }
  destruct (apply_shows q fl h corpus Hv Hall Hrange) as (fl' & h' & Ha & Hqr & Hal & Hi).
  exists fl', h', (spec_view q corpus). repeat split; [done..|].
  unfold spec_view. destruct (bool_decide (TrimSpace q = "")) eqn:E; [done|].
  apply bool_decide_eq_false in E. rewrite Htexts.
  split; [by apply Hc, Hq|].
  by apply picked_entries, Hrange.
Qed.
End Filter.

Section Aliasing.
Context `{T : Toolkit}.

(** After [apply("")] the view and the corpus are one header over one
    array. A query that is not blank then rebuilds the view in that array:
    the corpus becomes the matches followed by what was left of it. *)
Lemma apply_overwrites_corpus q q0 a (corpus : list userItem) h :
  let s := mkSlice (Some a) (length corpus) (length corpus) in
  let ms := Find q (FilterValue <$> corpus) in
  TrimSpace q ≠ "" →
  h !! a = Some (Some <$> corpus) →
  Forall (λ i, i < length corpus)%nat ms →
  (length ms ≤ length corpus)%nat →
  ∃ fl' h',
    apply q (mkFuzzy s s q0) h = Some (fl', h')
    ∧ all fl' = s
    ∧ items_of h' (view fl') = Some (Some <$> spec_view q corpus)
    ∧ items_of h' (all fl')
      = Some (Some <$> (spec_view q corpus ++ drop (length ms) corpus)).
Proof.
  intros s ms Hq Ha Hrange Hlen.
  assert (Hs : items_of h s = Some (Some <$> corpus)).
  { subst s. rewrite (items_of_array _ _ _ _ _ Ha) by (by rewrite length_fmap).
    rewrite take_ge; [done | by rewrite length_fmap]. }
  destruct (picked_entries corpus ms Hrange) as [Hpick _].
  unfold apply, spec_view. rewrite (bool_decide_eq_false_2 _ Hq).
  cbn [all view]. rewrite Hs. simpl. rewrite mapM_keyed. simpl.
  rewrite <- list_fmap_compose. change (fst ∘ _) with FilterValue. fold ms.
  unfold reslice0. cbn [s_arr s_cap s].
  rewrite (collect_in_place _ a (length corpus) ms 0 h (Some <$> corpus) _ Ha
             (length_fmap _ _) Hlen Hpick).
  simpl. eexists _, _. split; [reflexivity|]. split; [reflexivity|]. simpl.
  assert (Hcells : <[a:=(Some <$> omap (λ i, corpus !! i) ms)
                        ++ drop (length ms) (Some <$> corpus)]> h !! a
                   = Some ((Some <$> omap (λ i, corpus !! i) ms)
                           ++ drop (length ms) (Some <$> corpus))).
  { apply list_lookup_insert_eq. by eapply lookup_lt_Some. }
  assert (Hpl : length (omap (λ i, corpus !! i) ms) = length ms).
  { destruct (picked_entries corpus ms Hrange) as [_ HF].
    symmetry. by eapply Forall2_length. }
  split.
  - rewrite (items_of_array _ _ _ _ _ Hcells).
    + f_equal. apply take_app_length'. by rewrite length_fmap.
    + rewrite length_app, length_fmap. lia.
  - subst s. rewrite (items_of_array _ _ _ _ _ Hcells).
    + f_equal. rewrite fmap_app, fmap_drop. apply take_ge.
      rewrite length_app, length_drop, !length_fmap. lia.
    + rewrite length_app, length_drop, !length_fmap. lia.
Qed.
End Aliasing.

(** ** The reference matcher meets the contract *)

Lemma seq_increasing a n : StronglySorted lt (seq a n).
Proof.
  revert a. induction n as [|n IH]; intros a; simpl; constructor; [apply IH|].
  apply Forall_forall. intros x Hx%list_elem_of_In%in_seq. lia.
Qed.

Lemma filter_StronglySorted {A} (R : A → A → Prop) f l :
  StronglySorted R l → StronglySorted R (List.filter f l).
Proof.
  induction 1 as [|x l Hl IH Hx]; simpl; [constructor|].
  destruct (f x); [|done]. constructor; [done|].
  apply Forall_forall. intros y Hy%list_elem_of_In%filter_In.
  rewrite Forall_forall in Hx. apply Hx, list_elem_of_In, Hy.
Qed.

Section RankingFacts.
Variable M : Matcher.
Variables (q : string) (data : list string).
#[local] Abbreviation ins := (rank_insert M q data).
#[local] Abbreviation bef := (before M q data).

Lemma elem_of_rank_insert i j l : j ∈ ins i l ↔ j = i ∨ j ∈ l.
Proof.
  induction l as [|k l IH]; simpl.
  - rewrite list_elem_of_singleton, elem_of_nil. tauto.
  - destruct (_ <? _)%Z; rewrite !elem_of_cons; [tauto|]. rewrite IH. tauto.
Qed.

(** Inserting a position that is larger than all those listed keeps the
    list ranked: it goes after the entries that score as much or more. *)
Lemma rank_insert_sorted i l :
  StronglySorted bef l → Forall (λ j, j < i)%nat l → StronglySorted bef (ins i l).
Proof.
  induction 1 as [|k l Hl IH Hk]; intros Hlt; simpl.
  { repeat constructor. }
  apply Forall_cons in Hlt as [Hki Hlt].
  destruct (score_at M q data k <? score_at M q data i)%Z eqn:E.
  - apply Z.ltb_lt in E. constructor; [by constructor|].
    constructor; [by left|].
    eapply Forall_impl; [exact Hk|]. simpl. intros x [Hx|[Hx _]]; left; lia.
  - apply Z.ltb_ge in E. constructor; [by apply IH|].
    apply Forall_forall. intros x Hx. apply elem_of_rank_insert in Hx as [->|Hx].
    + unfold before.
      destruct (decide (score_at M q data k = score_at M q data i));
        [right; split; [done|lia] | left; lia].
    + rewrite Forall_forall in Hk. by apply Hk.
Qed.

Lemma rank_fold_sorted ms : ∀ acc,
  StronglySorted lt ms →
  StronglySorted bef acc →
  (∀ a m, a ∈ acc → m ∈ ms → a < m)%nat →
  StronglySorted bef (fold_left (λ acc i, ins i acc) ms acc).
Proof.
  induction ms as [|m ms IH]; intros acc Hms Hacc Hlt; simpl; [done|].
  apply StronglySorted_inv in Hms as [Hms Hm]. rewrite Forall_forall in Hm.
  apply IH; [done| |].
  - apply rank_insert_sorted; [done|].
    apply Forall_forall. intros a Ha. apply Hlt; [done | apply list_elem_of_here].
  - intros a m' [->|Ha]%elem_of_rank_insert Hm'.
    + by apply Hm.
    + apply Hlt; [done | by apply list_elem_of_further].
Qed.

Lemma elem_of_rank_fold ms : ∀ acc i,
  i ∈ fold_left (λ acc i, ins i acc) ms acc ↔ i ∈ ms ∨ i ∈ acc.
Proof.
  induction ms as [|m ms IH]; intros acc i; simpl.
  - rewrite elem_of_nil. tauto.
  - rewrite IH, elem_of_rank_insert, elem_of_cons. tauto.
Qed.

Lemma elem_of_matching i :
  i ∈ matching M q data ↔ ∃ s, data !! i = Some s ∧ fuzzy_match M q s = true.
Proof.
  unfold matching. rewrite list_elem_of_In, filter_In, in_seq. split.
  - intros [_ Hm]. destruct (data !! i) as [s|]; [|done]. by exists s.
  - intros (s & Hs & Hm). rewrite Hs. split; [|done].
    apply lookup_lt_Some in Hs. lia.
Qed.

Lemma rank_all_ranked : ranked M q data (rank_all M q data).
Proof.
  split.
  - intros i. unfold rank_all. rewrite (elem_of_rank_fold _ [] i), elem_of_nil.
    rewrite <- elem_of_matching. tauto.
  - apply rank_fold_sorted.
    + apply filter_StronglySorted, seq_increasing.
    + constructor.
    + intros a m Ha. inversion Ha.
Qed.
End RankingFacts.

Lemma reference_contract : FindContract reference_toolkit byte_matcher.
Proof.
  intros q data Hq. simpl. destruct q; [done|]. apply rank_all_ranked.
Qed.

(** ** The session *)

Lemma enter_is_no_binding k :
  KType k = KeyEnter →
  Matches k (Quit newKeymap) = false ∧ Matches k (Help newKeymap) = false
  ∧ Matches k (Filter newKeymap) = false ∧ Matches k (Clear newKeymap) = false.
Proof.
  destruct k as [t r a]. simpl. intros ->. unfold Matches, KeyString. simpl.
  destruct a; repeat split; apply bool_decide_eq_false; compute_done.
Qed.

Section SessionFacts.
Context `{T : Toolkit}.

(** Handing a list of users to the filter never panics: it shows exactly
    these users, unfiltered, and resets the stored query. *)
Lemma show_users_shows users m w :
  ∃ h s,
    show_users users m w = Some (syncListView (set_fuzzy (mkFuzzy s s "") m), set_heap h w)
    ∧ slice_wf h s ∧ items_of h s = Some (Some <$> users).
Proof.
  unfold show_users.
  destruct (items_of_users_items users (heap w)) as (h & s & -> & Hwf & Hits).
  exists h, s. by repeat split.
Qed.

Lemma refilter_messages q m w m' w' :
  refilter q m w = Some (m', w') →
  errMsg m' = errMsg m ∧ status m' = status m ∧ mode_ m' = mode_ m
  ∧ db w' = db w ∧ git w' = git w ∧ procs w' = procs w.
Proof.
  unfold refilter. destruct (apply q (fuzzy m) (heap w)) as [[fl h]|]; [|done].
  simpl. by intros [= <- <-].
Qed.

Lemma show_users_messages users m w m' w' :
  show_users users m w = Some (m', w') →
  errMsg m' = errMsg m ∧ status m' = status m ∧ mode_ m' = mode_ m
  ∧ db w' = db w ∧ git w' = git w ∧ procs w' = procs w.
Proof.
  destruct (show_users_shows users m w) as (h & s & -> & _). by intros [= <- <-].
Qed.

(** C8. A local apply on a selected identity outside a work tree runs
    [git rev-parse] and nothing else: no [git config] is started, the
    error message is set, and the store, the git configuration, the
    backing arrays and the rest of the model are as before. *)
Theorem local_apply_outside_work_tree env m w it :
  SelectedItem (list_ m) (heap w) = Some (Some it) →
  in_repo env = false →
  ∃ m' w',
    applySelected "local" env m w = Some (m', NoCmd, w')
    ∧ m' = set_errMsg "not inside a git repo (local set aborted)" m
    ∧ procs w' = procs w ++ [["git"; "rev-parse"; "--is-inside-work-tree"]]
    ∧ db w' = db w ∧ git w' = git w ∧ heap w' = heap w.
Proof.
  intros Hsel Hout. unfold applySelected. rewrite Hsel. simpl.
  unfold gitInRepo. rewrite Hout. simpl.
  eexists _, _. by repeat split.
Qed.

(** Enter in the list is a request to apply the selection locally. *)
Lemma enter_applies_local k env m w :
  keys m = newKeymap → mode_ m = modeList → KType k = KeyEnter →
  Update (KeyPress k) env m w = applySelected "local" env m w.
Proof.
  intros Hk Hm Ht. simpl. rewrite Hm. unfold updateListKeys. rewrite Hk.
  destruct (enter_is_no_binding k Ht) as (-> & -> & -> & _).
  rewrite Ht. simpl. reflexivity.
Qed.

(** C7. A submit whose name or email is blank after trimming, or whose
    email buffer has no "@", only sets the error message: the form stays
    open in its mode with both buffers as they were, and the world, the
    store included, is untouched. *)
Theorem invalid_submit_keeps_form k env m w :
  keys m = newKeymap →
  mode_ m = modeAdd ∨ mode_ m = modeEdit →
  KType k = KeyEnter →
  Focused (form1 m) = false →
  TrimSpace (Value (form1 m)) = ""
  ∨ TrimSpace (Value (form2 m)) = ""
  ∨ Contains (Value (form2 m)) "@" = false →
  Update (KeyPress k) env m w = Some (set_errMsg "invalid name/email" m, NoCmd, w).
Proof.
  intros Hk Hm Ht Hf Hbad.
  assert (Update (KeyPress k) env m w = updateFormKeys k env m w) as ->
    by (simpl; by destruct Hm as [-> | ->]).
  unfold updateFormKeys. rewrite Hk.
  destruct (enter_is_no_binding k Ht) as (_ & _ & _ & ->).
  rewrite Ht, Hf. simpl. rewrite Contains_TrimSpace.
  destruct Hbad as [-> | [-> | ->]]; simpl; rewrite ?orb_true_r; reflexivity.
Qed.
End SessionFacts.

Section EditSubmit.
Context `{T : Toolkit}.

(** X24. A submit of the edit form whose DELETE and INSERT do not fail
    deletes the row of the edited identity and then inserts the trimmed
    pair. No row keeps the edited id, exactly one row holds the pair, and
    that row is either a row that held the pair already (the insert was
    ignored and no row was added) or a new row whose id is above every id
    the table had. *)
Theorem edit_submit_replaces_row k env m w it :
  let name := TrimSpace (Value (form1 m)) in
  let email := TrimSpace (Value (form2 m)) in
  let deleted := (deleteUser None (ID it) (db w)).1 in
  keys m = newKeymap →
  mode_ m = modeEdit →
  KType k = KeyEnter →
  Focused (form1 m) = false →
  name ≠ "" → email ≠ "" → Contains email "@" = true →
  SelectedItem (list_ m) (heap w) = Some (Some it) →
  it ∈ rows (db w) →
  store_wf (db w) →
  delete_fault env = None →
  insert_fault env = None →
  ∃ m' w',
    Update (KeyPress k) env m w = Some (m', NoCmd, w')
    ∧ mode_ m' = modeList ∧ status m' = "saved"
    ∧ db w' = (insertUser None name email deleted).1
    ∧ (∀ u, u ∈ rows (db w') → ID u ≠ ID it)
    ∧ count_pair name email (db w') = 1%nat
    ∧ if has_pair name email deleted then rows (db w') = rows deleted
      else rows (db w') = rows deleted ++ [mkUser (sqlite_sequence (db w) + 1) name email]
           ∧ ∀ u, u ∈ rows (db w) → (ID u < sqlite_sequence (db w) + 1)%Z.
Proof.
  intros name email deleted Hk Hm Ht Hf Hn He Hat Hsel Hin Hwf Hdel Hins.
  assert (Hwfd : store_wf deleted) by by apply deleteUser_wf.
  assert (Hnn : TrimSpace name = name) by apply TrimSpace_idempotent.
  assert (Hee : TrimSpace email = email) by apply TrimSpace_idempotent.
  assert (Hseq : ∀ u, u ∈ rows (db w) → (ID u < sqlite_sequence (db w) + 1)%Z).
  { intros u Hu. destruct Hwf as (_ & _ & Hs). rewrite Forall_forall in Hs.
    specialize (Hs u Hu). lia. }
  assert (Hgone : ∀ u, u ∈ rows (insertUser None name email deleted).1 → ID u ≠ ID it).
  { intros u. unfold insertUser. rewrite Hnn, Hee.
    destruct (has_pair name email deleted); simpl.
    - by intros [? _]%list_elem_of_filter.
    - intros [[? _]%list_elem_of_filter | ->%list_elem_of_singleton]%elem_of_app; [done|].
      simpl. specialize (Hseq it Hin). lia. }
  assert (Hone : count_pair name email (insertUser None name email deleted).1 = 1%nat).
  { apply count_pair_one; [by apply insertUser_wf|].
    pose proof (insertUser_has_pair name email deleted) as Hhas.
    by rewrite Hnn, Hee in Hhas. }
  remember (insertUser None name email deleted) as r eqn:Er.
  simpl. rewrite Hm. unfold updateFormKeys. rewrite Hk.
  destruct (enter_is_no_binding k Ht) as (_ & _ & _ & ->).
  rewrite Ht, Hf. simpl. fold name email.
  rewrite (bool_decide_eq_false_2 _ Hn), (bool_decide_eq_false_2 _ He), Hat. simpl.
  rewrite Hm, Hsel. simpl. rewrite Hdel, Hins. fold deleted. rewrite <- Er.
  unfold insertUser in Er. rewrite Hnn, Hee in Er.
  destruct (allUsers (select_fault env) r.1) as [users oe] eqn:Eusers.
  destruct (show_users_shows users m (set_db r.1 (set_db deleted w))) as (h & s & Hshow & _).
  destruct (has_pair name email deleted); subst r; simpl in *;
    rewrite Eusers, Hshow; simpl;
    (eexists _, _; split; [reflexivity|]); simpl;
    do 3 (split; [done|]); (split; [exact Hgone|]); (split; [exact Hone|]);
    [done | by split].
Qed.
End EditSubmit.

Section Messages.
Context `{T : Toolkit}.

(** One step of case analysis on a handler that returned. *)
Ltac handler_step H :=
  lazymatch type of H with
  | Some _ = Some _ => injection H as <- <- <-
  | None = Some _ => discriminate H
  | (if ?b then _ else _) = Some _ => destruct b eqn:?
  | mbind _ ?x = Some _ => let E := fresh "E" in destruct x eqn:E; simpl in H
  | (let '(_, _) := ?x in _) = Some _ => destruct x eqn:?
  | match ?x with _ => _ end = Some _ => destruct x eqn:?
  end.

Lemma setGitUser_error env scope u w w' e :
  setGitUser env scope u w = (w', Some e) →
  ∃ eo, (name_fault env = Some eo ∨ (name_fault env = None ∧ email_fault env = Some eo))
        ∧ e = git_error eo.
Proof.
  unfold setGitUser.
  destruct (name_fault env) as [eo|] eqn:E1; [intros [= _ <-]; eauto|].
  destruct (email_fault env) as [eo|] eqn:E2; [intros [= _ <-]; eauto|done].
Qed.

Lemma insertUser_error f name email s s' id e :
  insertUser f name email s = (s', (id, Some e)) → f = Some e.
Proof.
  unfold insertUser. destruct f; [by intros [= _ _ ->]|].
  by destruct (has_pair _ _ s).
Qed.

Lemma invalid_buffers name email :
  bool_decide (name = "") || bool_decide (email = "") || negb (Contains email "@") = true →
  name = "" ∨ email = "" ∨ Contains email "@" = false.
Proof.
  rewrite !orb_true_iff, !bool_decide_eq_true, negb_true_iff. tauto.
Qed.

Lemma valid_buffers name email :
  bool_decide (name = "") || bool_decide (email = "") || negb (Contains email "@") = false →
  name ≠ "" ∧ email ≠ "" ∧ Contains email "@" = true.
Proof.
  rewrite !orb_false_iff, !bool_decide_eq_false, negb_false_iff. tauto.
Qed.

(** What an event tells: it is quiet (the error message, the store, the
    git configuration and the mode are as before), or it announces its
    action in the status message and leaves the error message, or it
    raises an error in the error message and leaves the status message. *)
#[local] Abbreviation told msg env m w m' w' :=
  ((errMsg m' = errMsg m ∧ db w' = db w ∧ git w' = git w ∧ mode_ m' = mode_ m)
   ∨ (errMsg m' = errMsg m ∧ announces msg m w (status m'))
   ∨ (status m' = status m ∧ raises msg env m w (errMsg m'))).

Ltac frames :=
  repeat match goal with
         | E : refilter _ _ _ = Some _ |- _ =>
             apply refilter_messages in E as (? & ? & ? & ? & ? & ?)
         | E : show_users _ _ _ = Some _ |- _ =>
             apply show_users_messages in E as (? & ? & ? & ? & ? & ?)
         | Hb : bool_decide (KType _ = KeyEnter) = true |- _ =>
             apply bool_decide_eq_true in Hb
         end;
  simpl in *.

Lemma applySelected_told scope k env m w m' c w' :
  mode_ m = modeList →
  (scope = "local" ∧ (KType k = KeyEnter ∨ Matches k (Local (keys m)) = true))
  ∨ (scope = "global" ∧ Matches k (Global (keys m)) = true) →
  applySelected scope env m w = Some (m', c, w') →
  told (KeyPress k) env m w m' w'.
Proof.
  intros Hm Hk H. unfold applySelected in H.
  destruct (SelectedItem (list_ m) (heap w)) as [[it|]|] eqn:Hsel; simpl in H;
    [|by simplify_eq; left..].
  destruct (bool_decide (scope = "local")) eqn:Hs.
  - apply bool_decide_eq_true in Hs.
    assert (Hloc : KType k = KeyEnter ∨ Matches k (Local (keys m)) = true)
      by (destruct Hk as [[_ ?]|[-> _]]; [done | discriminate Hs]).
    unfold gitInRepo in H. destruct (in_repo env) eqn:Hin; simpl in H.
    + destruct (setGitUser env scope it _) as [w2 [e|]] eqn:Hset; simplify_eq; simpl.
      * apply setGitUser_error in Hset as (eo & Hf & ->).
        right; right. split; [done|]. eapply raises_git; [done | by left | done..].
      * right; left. split; [done|]. by eapply announces_set.
    + simplify_eq. simpl. right; right. split; [done|]. by eapply raises_outside.
  - assert (Hglob : Matches k (Global (keys m)) = true).
    { destruct Hk as [[-> _]|[_ ?]]; [|done].
      by rewrite bool_decide_eq_true_2 in Hs. }
    destruct (setGitUser env scope it w) as [w2 [e|]] eqn:Hset; simplify_eq; simpl.
    + apply setGitUser_error in Hset as (eo & Hf & ->).
      right; right. split; [done|]. eapply raises_git; [done | by right | done..].
    + right; left. split; [done|]. by eapply announces_set.
Qed.

Lemma updateListKeys_told k env m w m' c w' :
  mode_ m = modeList →
  updateListKeys k env m w = Some (m', c, w') →
  told (KeyPress k) env m w m' w'.
Proof.
  intros Hm H. unfold updateListKeys in H.
  repeat (first [ match type of H with
                  | applySelected _ _ _ _ = Some _ =>
                      frames;
                      eapply (applySelected_told _ k) in H; [exact H | exact Hm | by auto]
                  end
                | handler_step H ]);
    simplify_eq; frames;
    first [ by left; repeat split; congruence
          | right; left; split; [congruence|]; by econstructor ].
Qed.

Lemma updateFormKeys_told k env m w m' c w' :
  mode_ m ≠ modeList →
  updateFormKeys k env m w = Some (m', c, w') →
  told (KeyPress k) env m w m' w'.
Proof.
  intros Hm H. unfold updateFormKeys in H.
  repeat handler_step H; simplify_eq; frames;
    first [ by left; repeat split; congruence
          | right; left; split; [congruence|]; by econstructor
          | right; right; split; [done|];
            first [ eapply raises_invalid; [done..|]; by apply invalid_buffers
                  | eapply raises_insert;
                    [done | done | done | by apply valid_buffers
                    | by eapply insertUser_error ] ] ].
Qed.

(** While a form is open, a key that leaves it open touches neither the
    list nor the backing arrays: the selected item at submit is the one the
    edit began with. *)
Lemma form_keys_keep_list k env m w m' c w' :
  updateFormKeys k env m w = Some (m', c, w') →
  mode_ m' ≠ modeList →
  list_ m' = list_ m ∧ heap w' = heap w.
Proof.
  unfold updateFormKeys. intros H Hmode.
  repeat handler_step H; simplify_eq; simpl in *; try done;
    repeat match goal with
           | E : show_users _ _ _ = Some _ |- _ =>
               apply show_users_messages in E as (_ & _ & ? & _); simpl in *
           | o : option User |- _ => destruct o; simpl in *
           end; done.
Qed.

(** C3, as the program has it. No event clears the error message: after
    an event it is what it was, or the message of an error that this event
    raised (a submit that fails the validation, a submit whose insert
    fails, a local apply outside a work tree, an apply whose git write
    fails). An event that changes the store, the git configuration or the
    mode overwrites one of the two messages: the status message with the
    message of its action, leaving the error message, or, when it raises an
    error, the error message with that error, leaving the status
    message. *)
Theorem errMsg_kept_or_raised msg env m w m' c w' :
  Update msg env m w = Some (m', c, w') →
  (errMsg m' = errMsg m ∨ raises msg env m w (errMsg m'))
  ∧ (db w' ≠ db w ∨ git w' ≠ git w ∨ mode_ m' ≠ mode_ m →
     (errMsg m' = errMsg m ∧ announces msg m w (status m'))
     ∨ (status m' = status m ∧ raises msg env m w (errMsg m'))).
Proof.
  intros H.
  assert (Htold : told msg env m w m' w').
  { destruct msg as [wd ht|k]; simpl in H.
    - injection H as <- <- <-. by left.
    - assert (Hcase : mode_ m = modeList ∧ updateListKeys k env m w = Some (m', c, w')
                      ∨ mode_ m ≠ modeList ∧ updateFormKeys k env m w = Some (m', c, w'))
        by (destruct (mode_ m); [left | right | right]; by split).
      destruct Hcase as [[Hm Hl] | [Hm Hf]].
      + by eapply updateListKeys_told.
      + by eapply updateFormKeys_told. }
  destruct Htold as [(He & Hd & Hg & Hmode) | [[He Ha] | [Hs Hr]]].
  - split; [by left|]. intros [?|[?|?]]; done.
  - split; [by left|]. intros _. by left.
  - split; [by right|]. intros _. by right.
Qed.
End Messages.

(** ** The session on concrete inputs *)

Section Runs.
#[local] Existing Instance reference_toolkit.

(** C1. The view does not stay the filter of the corpus by the query.
    Typing "b" into the filter writes the match over the first cell of the
    corpus, which shares its array with the view: the corpus becomes Bob
    twice while the store still lists Alice and Bob, and the view is not
    the filter of that corpus. A delete under the query "a" reloads the
    corpus and shows all of it, with the query text still in the input. *)
Theorem filter_view_out_of_sync :
  (∃ m w,
     started two_users [quietly (rune "/"); quietly (rune "b")] = Some (m, w)
     ∧ Value (filter_ m) = "b"
     ∧ items_of (heap w) (view (fuzzy m)) = Some [Some bob]
     ∧ items_of (heap w) (all (fuzzy m)) = Some [Some bob; Some bob]
     ∧ (allUsers None (db w)).1 = [alice; bob]
     ∧ ¬ view_in_sync m w)
  ∧ (∃ m w,
       started two_users
         [quietly (rune "/"); quietly (rune "a"); quietly (press KeyBackspace)]
       = Some (m, w)
       ∧ Value (filter_ m) = "a"
       ∧ query (fuzzy m) = ""
       ∧ items_of (heap w) (all (fuzzy m)) = Some [Some bob]
       ∧ items_of (heap w) (view (fuzzy m)) = Some [Some bob]
       ∧ spec_view "a" [bob] = []
       ∧ ¬ view_in_sync m w).
Proof.
  split.
  - eexists _, _. split; [vm_compute; reflexivity|].
    do 4 (split; [vm_compute; reflexivity|]).
    intros (corpus & Hall & Hview).
    assert (corpus = [bob; bob]) as ->.
    { vm_compute in Hall.
      destruct corpus as [|x [|y [|z ?]]]; by simplify_eq/=. }
    vm_compute in Hview. discriminate Hview.
  - eexists _, _. split; [vm_compute; reflexivity|].
    do 5 (split; [vm_compute; reflexivity|]).
    intros (corpus & Hall & Hview).
    assert (corpus = [bob]) as ->.
    { vm_compute in Hall.
      destruct corpus as [|x [|y ?]]; by simplify_eq/=. }
    vm_compute in Hview. discriminate Hview.
Qed.

(** C2. A store error during an action can pass unseen. With the
    database locked, a delete leaves the rows in place, reports "deleted"
    and sets no error; with the reload failing after a save, the session
    reports "saved", sets no error, and shows an empty list over a table
    of three rows. *)
Theorem store_errors_dropped :
  (∃ m w,
     started two_users [(press KeyBackspace, locked)] = Some (m, w)
     ∧ status m = "deleted" ∧ errMsg m = ""
     ∧ rows (db w) = [alice; bob])
  ∧ (∃ m w,
       started two_users (add_cy ++ [(press KeyEnter, unreadable)]) = Some (m, w)
       ∧ status m = "saved" ∧ errMsg m = "" ∧ mode_ m = modeList
       ∧ items_of (heap w) (view (fuzzy m)) = Some []
       ∧ rows (db w) = [alice; bob; mkUser 3 "Cy" "c@x.com"]).
Proof.
  split; eexists _, _; (split; [vm_compute; reflexivity|]);
    repeat split; vm_compute; reflexivity.
Qed.

(** C4. With the filter focused on the query "al", backspace leaves the
    query as it is and deletes the selected identity from the store, and
    the character "q" is not added to the query: it quits. *)
Theorem filter_keys_not_edits :
  ∃ m w,
    started two_users [quietly (rune "/"); quietly (rune "a"); quietly (rune "l")]
    = Some (m, w)
    ∧ mode_ m = modeList ∧ Focused (filter_ m) = true ∧ Value (filter_ m) = "al"
    ∧ (∃ m' w',
         Update (KeyPress (press KeyBackspace)) (calm true) m w = Some (m', NoCmd, w')
         ∧ Value (filter_ m') = "al"
         ∧ status m' = "deleted"
         ∧ rows (db w) = [alice; bob] ∧ rows (db w') = [bob])
    ∧ Update (KeyPress (rune "q")) (calm true) m w = Some (m, QuitCmd, w).
Proof.
  eexists _, _. split; [vm_compute; reflexivity|].
  do 3 (split; [vm_compute; reflexivity|]).
  split; [|vm_compute; reflexivity].
  eexists _, _. split; [vm_compute; reflexivity|].
  repeat split; vm_compute; reflexivity.
Qed.

(** C5. An edit does not always replace the row. When the DELETE of a
    submit fails, its error is dropped and the insert goes on: the program
    reports "saved" with no error message and returns to the list, and the
    row of the edited identity is still in the store under its id. With
    the name changed the old row stands next to the new one; with the pair
    unchanged the insert is ignored and the table has the rows it had. *)
Theorem edit_submit_keeps_row_when_delete_fails :
  (∃ m w,
     started two_users [quietly (rune "e"); quietly (rune "!"); quietly (press KeyEnter)]
     = Some (m, w)
     ∧ mode_ m = modeEdit
     ∧ SelectedItem (list_ m) (heap w) = Some (Some alice)
     ∧ Value (form1 m) = "Alice Smith!" ∧ Value (form2 m) = "a@x.com"
     ∧ Focused (form1 m) = false
     ∧ ∃ m' w',
         Update (KeyPress (press KeyEnter)) delete_locked m w = Some (m', NoCmd, w')
         ∧ mode_ m' = modeList ∧ status m' = "saved" ∧ errMsg m' = ""
         ∧ rows (db w') = [alice; bob; mkUser 3 "Alice Smith!" "a@x.com"])
  ∧ (∃ m w,
       started two_users [quietly (rune "e"); quietly (press KeyEnter)] = Some (m, w)
       ∧ mode_ m = modeEdit
       ∧ SelectedItem (list_ m) (heap w) = Some (Some alice)
       ∧ ∃ m' w',
           Update (KeyPress (press KeyEnter)) delete_locked m w = Some (m', NoCmd, w')
           ∧ mode_ m' = modeList ∧ status m' = "saved" ∧ errMsg m' = ""
           ∧ rows (db w') = [alice; bob]).
Proof.
  split; eexists _, _; (split; [vm_compute; reflexivity|]);
    repeat (split; [vm_compute; reflexivity|]);
    eexists _, _; (split; [vm_compute; reflexivity|]);
    repeat split; vm_compute; reflexivity.
Qed.

(** C3, as stated, fails: the message of a failed insert is still there
    after the next action, a cancel, which raises nothing, changes the mode
    and overwrites the status message only. *)
Lemma errMsg_outlives_action : ¬ error_cleared_by_each_action.
Proof.
  intros Hclaim.
  assert (∃ m w, started two_users (add_cy ++ [(press KeyEnter, locked)]) = Some (m, w)
                 ∧ keys m = newKeymap ∧ mode_ m = modeAdd
                 ∧ errMsg m = "database is locked") as (m & w & _ & Hk & Hm & He).
  { eexists _, _. split; [vm_compute; reflexivity|]. repeat split. }
  destruct (Hclaim (KeyPress (press KeyEsc)) (calm true) m w
              (set_status "cancelled" (set_mode modeList m)) NoCmd w) as [Hnone|Hraised].
  - simpl. rewrite Hm. unfold updateFormKeys. by rewrite Hk.
  - simpl in Hnone. by rewrite He in Hnone.
  - simpl in Hraised. rewrite He in Hraised.
    destruct Hraised as [H|[H|[H|(eo & [H|H] & _)]]]; discriminate H.
Qed.

(** The scenario of the specification: the query "ali" over Alice and Bob
    shows Alice alone. *)
Example ali_shows_alice :
  ∃ m w,
    started two_users [quietly (rune "/"); quietly (rune "ali")] = Some (m, w)
    ∧ items_of (heap w) (view (fuzzy m)) = Some [Some alice].
Proof. eexists _, _. split; vm_compute; reflexivity. Qed.

(** ** The theorems at concrete inputs *)

Lemma insertUser_idempotent_witness :
  store_wf (db two_users)
  ∧ let s1 := (insertUser None " Cy" "c@x.com" (db two_users)).1 in
    let r2 := insertUser None "Cy " " c@x.com" s1 in
    rows s1 = [alice; bob; mkUser 3 "Cy" "c@x.com"]
    ∧ rows r2.1 = rows s1
    ∧ last_insert_rowid r2.1 = last_insert_rowid s1
    ∧ sqlite_sequence r2.1 = (sqlite_sequence s1 + 1)%Z
    ∧ r2.2.2 = None
    ∧ count_pair "Cy" "c@x.com" r2.1 = 1%nat.
Proof.
  assert (Hwf : store_wf (db two_users)) by (unfold store_wf; compute_done).
  split; [exact Hwf|]. intros s1 r2. split; [reflexivity|].
  exact (proj2 (insertUser_idempotent (db two_users) " Cy" "c@x.com" "Cy " " c@x.com"
                  Hwf eq_refl eq_refl)).
Defined.


Lemma invalid_submit_keeps_form_witness :
  ∃ m w,
    started two_users [quietly (rune "a"); quietly (press KeyEnter)] = Some (m, w)
    ∧ mode_ m = modeAdd ∧ Focused (form1 m) = false
    ∧ TrimSpace (Value (form1 m)) = ""
    ∧ Update (KeyPress (press KeyEnter)) (calm true) m w
      = Some (set_errMsg "invalid name/email" m, NoCmd, w).
Proof.
  eexists _, _. split; [vm_compute; reflexivity|].
  do 3 (split; [reflexivity|]).
  apply invalid_submit_keeps_form;
    [reflexivity | left; reflexivity | reflexivity | reflexivity | left; reflexivity].
Defined.

Lemma local_apply_outside_work_tree_witness :
  ∃ m w,
    started two_users [] = Some (m, w)
    ∧ SelectedItem (list_ m) (heap w) = Some (Some alice)
    ∧ in_repo (calm false) = false
    ∧ ∃ m' w',
        applySelected "local" (calm false) m w = Some (m', NoCmd, w')
        ∧ m' = set_errMsg "not inside a git repo (local set aborted)" m
        ∧ procs w' = procs w ++ [["git"; "rev-parse"; "--is-inside-work-tree"]]
        ∧ db w' = db w ∧ git w' = git w ∧ heap w' = heap w.
Proof.
  eexists _, _. split; [vm_compute; reflexivity|].
  do 2 (split; [reflexivity|]).
  apply (local_apply_outside_work_tree (calm false) _ _ alice); reflexivity.
Defined.

Lemma edit_submit_replaces_row_witness :
  ∃ m w,
    started two_users
      [quietly (rune "e"); quietly (rune "  "); quietly (press KeyEnter); quietly (rune " ")]
    = Some (m, w)
    ∧ mode_ m = modeEdit
    ∧ Value (form1 m) = "Alice Smith  " ∧ Value (form2 m) = "a@x.com "
    ∧ SelectedItem (list_ m) (heap w) = Some (Some alice)
    ∧ store_wf (db w)
    ∧ ∃ m' w',
        Update (KeyPress (press KeyEnter)) (calm true) m w = Some (m', NoCmd, w')
        ∧ rows (db w') = [bob; mkUser 3 "Alice Smith" "a@x.com"].
Proof.
  eexists _, _. split; [vm_compute; reflexivity|].
  do 4 (split; [reflexivity|]).
  assert (Hwf : store_wf (db two_users)) by (unfold store_wf; compute_done).
  split; [exact Hwf|].
  match goal with
  | |- ∃ m' w', Update _ _ ?m ?w = _ ∧ _ =>
      edestruct (edit_submit_replaces_row (press KeyEnter) (calm true) m w alice)
        as (m' & w' & HU & _ & _ & Hdb & _)
  end;
    [reflexivity | reflexivity | reflexivity | reflexivity
    | compute_done | compute_done | reflexivity | reflexivity
    | apply list_elem_of_here | exact Hwf | reflexivity | reflexivity |].
  exists m', w'. split; [exact HU|]. rewrite Hdb. reflexivity.
Defined.

Lemma apply_filters_and_ranks_witness :
  let h : Heap := [[Some alice; Some bob]] in
  let s := mkSlice (Some 0%nat) 2 2 in
  FindContract reference_toolkit byte_matcher
  ∧ slice_wf h s
  ∧ items_of h s = Some (Some <$> [alice; bob])
  ∧ Find "<B@" ["Alice Smith <a@x.com>"; "Bob Jones <b@x.com>"] = [1%nat]
  ∧ ∃ fl' h',
      apply "<B@" (mkFuzzy s s "") h = Some (fl', h')
      ∧ query fl' = "<B@"
      ∧ items_of h' (view fl') = Some [Some bob].
Proof.
  intros h s.
  assert (Hwf : slice_wf h s) by (eexists; repeat split; reflexivity).
  split; [exact reference_contract|]. split; [exact Hwf|]. split; [reflexivity|].
  split; [reflexivity|].
  destruct (apply_filters_and_ranks byte_matcher "<B@" (mkFuzzy s s "") h [alice; bob]
              reference_contract Hwf eq_refl)
    as (fl' & h' & shown & Ha & Hq & _ & Hi & _ & Hshown).
  exists fl', h'. split; [exact Ha|]. split; [exact Hq|].
  change (Forall2 (λ i u, [alice; bob] !! i = Some u) [1%nat] shown) in Hshown.
  apply Forall2_cons_inv_l in Hshown as (u & l & Hu & Hl & ->).
  apply Forall2_nil_inv_l in Hl as ->.
  injection Hu as <-. exact Hi.
Defined.

Lemma errMsg_kept_or_raised_witness :
  ∃ m w,
    started two_users [quietly (rune "e"); quietly (press KeyEnter)] = Some (m, w)
    ∧ ∃ m' c w',
        Update (KeyPress (press KeyEnter)) full_disk m w = Some (m', c, w')
        ∧ db w' ≠ db w
        ∧ errMsg m' = "database or disk is full"
        ∧ (errMsg m' = errMsg m
           ∨ raises (KeyPress (press KeyEnter)) full_disk m w (errMsg m'))
        ∧ (db w' ≠ db w ∨ git w' ≠ git w ∨ mode_ m' ≠ mode_ m →
           (errMsg m' = errMsg m
            ∧ announces (KeyPress (press KeyEnter)) m w (status m'))
           ∨ (status m' = status m
              ∧ raises (KeyPress (press KeyEnter)) full_disk m w (errMsg m'))).
Proof.
  eexists _, _. split; [vm_compute; reflexivity|].
  match goal with
  | |- ∃ m' c w', Update ?msg ?env ?m ?w = _ ∧ _ =>
      let r := eval vm_compute in (Update msg env m w) in
      lazymatch r with
      | Some (?m', ?c, ?w') =>
          exists m', c, w'; split; [vm_compute; reflexivity|];
          split; [intros Hq; vm_compute in Hq; discriminate Hq|];
          split; [reflexivity|];
          apply (errMsg_kept_or_raised msg env m w m' c w');
          vm_compute; reflexivity
      end
  end.
Defined.
End Runs.


(** * More of the program *)

(** ** The store *)

Lemma nocase_le_total a : ∀ b, nocase_le a b = true ∨ nocase_le b a = true.
Proof.
  induction a as [|x a IH]; intros [|y b]; simpl; auto.
  destruct (N.ltb_spec (nocase_byte x) (nocase_byte y)); [auto|].
  destruct (N.ltb_spec (nocase_byte y) (nocase_byte x)); [auto|].
  apply IH.
Qed.

Lemma nocase_le_trans a : ∀ b c,
  nocase_le a b = true → nocase_le b c = true → nocase_le a c = true.
Proof.
  induction a as [|x a IH]; intros [|y b] [|z c]; simpl; try done.
  destruct (N.ltb_spec (nocase_byte x) (nocase_byte y)),
    (N.ltb_spec (nocase_byte y) (nocase_byte x)),
    (N.ltb_spec (nocase_byte y) (nocase_byte z)),
    (N.ltb_spec (nocase_byte z) (nocase_byte y)),
    (N.ltb_spec (nocase_byte x) (nocase_byte z)),
    (N.ltb_spec (nocase_byte z) (nocase_byte x)); try done; try lia.
  apply IH.
Qed.

Lemma insert_by_name_perm u l : insert_by_name u l ≡ₚ u :: l.
Proof.
  induction l as [|v l IH]; simpl; [done|].
  destruct (name_le v u); [|done]. rewrite IH. apply Permutation_swap.
Qed.

Lemma insert_by_name_sorted u l :
  StronglySorted (λ a b, name_le a b = true) l →
  StronglySorted (λ a b, name_le a b = true) (insert_by_name u l).
Proof.
  induction 1 as [|v l Hl IH Hv]; simpl; [repeat constructor|].
  destruct (name_le v u) eqn:E.
  - constructor; [done|]. rewrite insert_by_name_perm. by constructor.
  - assert (Huv : name_le u v = true).
    { destruct (nocase_le_total (list_ascii_of_string (Name u))
                  (list_ascii_of_string (Name v))) as [H|H]; [done|].
      unfold name_le in E. congruence. }
    constructor; [by constructor|]. constructor; [done|].
    eapply Forall_impl; [exact Hv|]. simpl. intros w Hw.
    eapply nocase_le_trans; [exact Huv | exact Hw].
Qed.

Lemma order_by_name_fold l : ∀ acc,
  StronglySorted (λ a b, name_le a b = true) acc →
  fold_left (λ acc u, insert_by_name u acc) l acc ≡ₚ l ++ acc
  ∧ StronglySorted (λ a b, name_le a b = true)
      (fold_left (λ acc u, insert_by_name u acc) l acc).
Proof.
  induction l as [|u l IH]; intros acc Hacc; simpl; [done|].
  destruct (IH (insert_by_name u acc) (insert_by_name_sorted u acc Hacc)) as [Hp Hs].
  split; [|done]. rewrite Hp, insert_by_name_perm. by rewrite Permutation_middle.
Qed.

(** X1. A load that does not fail returns every stored row exactly once,
    in ascending order of the name compared without regard to ASCII letter
    case. *)
Theorem allUsers_sorted_permutation s :
  (allUsers None s).2 = None
  ∧ (allUsers None s).1 ≡ₚ rows s
  ∧ StronglySorted (λ a b, name_le a b = true) (allUsers None s).1.
Proof.
  simpl. split; [done|]. unfold order_by_name.
  destruct (order_by_name_fold (rows s) [] (SSorted_nil _)) as [Hp Hs].
  split; [|done]. by rewrite Hp, app_nil_r.
Qed.

Lemma filter_keeps_all {A} (P : A → Prop) `{∀ x, Decision (P x)} (l : list A) :
  Forall P l → filter P l = l.
Proof.
  induction 1 as [|x l Hx _ IH]; [done|].
  rewrite filter_cons. destruct (decide (P x)); [|done]. by rewrite IH.
Qed.

Lemma deleteUser_absent id s : id ∉ ID <$> rows s → (deleteUser None id s).1 = s.
Proof.
  intros Hid. destruct s as [rs sq lr]. simpl in *. f_equal.
  apply filter_keeps_all, Forall_forall. intros u Hu Heq.
  apply Hid, list_elem_of_fmap. eauto.
Qed.

Lemma deleteUser_id_gone id s : id ∉ ID <$> rows (deleteUser None id s).1.
Proof.
  simpl. intros (u & -> & Hu)%list_elem_of_fmap.
  by apply list_elem_of_filter in Hu as [? _].
Qed.

(** X2. A delete that does not fail removes the rows of that id and no
    other, keeps the order of the rest and the AUTOINCREMENT counter,
    changes nothing when no row has the id, and repeated changes nothing
    more. *)
Theorem deleteUser_removes_exactly id s :
  let r := deleteUser None id s in
  r.2 = None
  ∧ (∀ u, u ∈ rows r.1 ↔ u ∈ rows s ∧ ID u ≠ id)
  ∧ rows r.1 `sublist_of` rows s
  ∧ sqlite_sequence r.1 = sqlite_sequence s
  ∧ (id ∉ ID <$> rows s → r.1 = s)
  ∧ (deleteUser None id r.1).1 = r.1.
Proof.
  intros r. split; [done|]. split.
  { intros u. simpl. rewrite list_elem_of_filter. tauto. }
  split; [apply sublist_filter|]. split; [done|].
  split; [apply deleteUser_absent|].
  apply deleteUser_absent, deleteUser_id_gone.
Qed.

(** X3. An insert of a pair that no row holds appends one row with the
    trimmed fields under an id above every id of the table, returns that
    id without error, and leaves the constraints of the table in place. *)
Theorem insertUser_fresh s name email :
  store_wf s →
  has_pair (TrimSpace name) (TrimSpace email) s = false →
  let r := insertUser None name email s in
  r.2.2 = None
  ∧ rows r.1 = rows s ++ [mkUser r.2.1 (TrimSpace name) (TrimSpace email)]
  ∧ (∀ u, u ∈ rows s → (ID u < r.2.1)%Z)
  ∧ last_insert_rowid r.1 = r.2.1
  ∧ store_wf r.1.
Proof.
  intros Hwf Hno r. pose proof (insertUser_wf None name email s Hwf) as Hwf'.
  subst r. unfold insertUser in *. rewrite Hno in *. simpl.
  do 2 (split; [done|]). split; [|by split].
  intros u Hu. destruct Hwf as (_ & _ & Hs). rewrite Forall_forall in Hs.
  specialize (Hs u Hu). lia.
Qed.

(** X4. [insertUser] absorbs the trimming: a caller that trims the fields
    first, as the form does, gets the same table and the same result. *)
Theorem insertUser_trimmed_args f name email s :
  insertUser f (TrimSpace name) (TrimSpace email) s = insertUser f name email s.
Proof. unfold insertUser. by rewrite !TrimSpace_idempotent. Qed.

(** X5. Ids are not reused: after a fresh insert and the delete of the id
    it returned the rows are what they were, and the next fresh insert,
    of the same pair or another, gets the id after the deleted one. *)
Theorem insert_delete_round_trip s name email name' email' :
  store_wf s →
  has_pair (TrimSpace name) (TrimSpace email) s = false →
  let r := insertUser None name email s in
  let s' := (deleteUser None r.2.1 r.1).1 in
  rows s' = rows s
  ∧ (has_pair (TrimSpace name') (TrimSpace email') s' = false →
     (insertUser None name' email' s').2 = ((r.2.1 + 1)%Z, None)).
Proof.
  intros Hwf Hno r s'.
  assert (Hr : r = (mkStore (rows s ++ [mkUser (sqlite_sequence s + 1)
                                          (TrimSpace name) (TrimSpace email)])
                      (sqlite_sequence s + 1) (sqlite_sequence s + 1),
                    ((sqlite_sequence s + 1)%Z, None)))
    by (subst r; unfold insertUser; by rewrite Hno).
  subst s'. rewrite Hr. simpl. split.
  - rewrite filter_app, filter_cons, filter_nil. simpl.
    rewrite decide_False by (intros H; by apply H). rewrite app_nil_r.
    apply filter_keeps_all, Forall_forall. intros u Hu.
    destruct Hwf as (_ & _ & Hs). rewrite Forall_forall in Hs.
    specialize (Hs u Hu). lia.
  - intros Hno'. unfold insertUser. by rewrite Hno'.
Qed.

(** X6. Every store operation, failing or not, keeps the constraints of
    the schema: no two rows with one (name, email), no two rows with one
    id, and the AUTOINCREMENT counter at or above every id. *)
Theorem store_operations_keep_constraints s :
  store_wf s →
  (∀ f name email, store_wf (insertUser f name email s).1)
  ∧ (∀ f id, store_wf (deleteUser f id s).1).
Proof.
  intros Hwf. split; intros; [by apply insertUser_wf | by apply deleteUser_wf].
Qed.


(** ** git ops *)

(** X7. [setGitUser] writes only the entries of its scope, and the name
    before the email: without error both carry the identity after two
    [git config] runs; with an error the email of the scope is as it was;
    when the name write fails nothing is written and the email write is
    not started; when only the email write fails the name is already
    written. The store and the backing arrays are not touched. *)
Theorem setGitUser_writes_scope env scope u w :
  let global := bool_decide (scope = "global") in
  let r := setGitUser env scope u w in
  db r.1 = db w ∧ heap r.1 = heap w
  ∧ scope_name (negb global) (git r.1) = scope_name (negb global) (git w)
  ∧ scope_email (negb global) (git r.1) = scope_email (negb global) (git w)
  ∧ (r.2 = None →
     scope_name global (git r.1) = Some (Name u)
     ∧ scope_email global (git r.1) = Some (Email u)
     ∧ length (procs r.1) = S (S (length (procs w))))
  ∧ (r.2 ≠ None → scope_email global (git r.1) = scope_email global (git w))
  ∧ (name_fault env ≠ None →
     git r.1 = git w ∧ length (procs r.1) = S (length (procs w)))
  ∧ (name_fault env = None → email_fault env ≠ None →
     r.2 ≠ None ∧ scope_name global (git r.1) = Some (Name u)).
Proof.
  intros global r. subst r. unfold setGitUser. fold global.
  destruct (name_fault env) as [eo|], (email_fault env) as [eo'|], global;
    simpl; rewrite ?length_app; simpl;
    repeat split; intros; try done; try lia.
Qed.

Lemma readGitUser_frame env r scope w :
  db (readGitUser env r scope w).1 = db w
  ∧ heap (readGitUser env r scope w).1 = heap w
  ∧ git (readGitUser env r scope w).1 = git w.
Proof.
  unfold readGitUser, gitInRepo.
  destruct (bool_decide (scope = "local")), (in_repo env),
    (out_failed (name_read r) || out_failed (email_read r)); done.
Qed.

Lemma readGitUser_result env r scope w w0 :
  (readGitUser env r scope w).2 = (readGitUser env r scope w0).2.
Proof.
  unfold readGitUser, gitInRepo.
  destruct (bool_decide (scope = "local")), (in_repo env),
    (out_failed (name_read r) || out_failed (email_read r)); done.
Qed.

Lemma readGitUser_trimmed env r scope w :
  let u := (readGitUser env r scope w).2.1 in
  TrimSpace (Name u) = Name u ∧ TrimSpace (Email u) = Email u.
Proof.
  unfold readGitUser, gitInRepo.
  destruct (bool_decide (scope = "local")), (in_repo env),
    (out_failed (name_read r) || out_failed (email_read r)); simpl;
    rewrite ?TrimSpace_idempotent; done.
Qed.

(** X8. [readGitUser] succeeds exactly when the scope passed its check
    and both reads succeeded, and then returns the two outputs trimmed. It
    runs the email read even when the name read failed, runs nothing but
    the check when a "local" read is outside a work tree, never runs the
    check for another scope, and writes nothing. *)
Theorem readGitUser_outcome env r scope w :
  let res := readGitUser env r scope w in
  let checked := bool_decide (scope = "local") in
  (res.2.2 = None ↔
     (checked = true → in_repo env = true)
     ∧ out_failed (name_read r) = false ∧ out_failed (email_read r) = false)
  ∧ (res.2.2 = None →
     res.2.1 = mkUser 0 (TrimSpace (out_text (name_read r)))
                        (TrimSpace (out_text (email_read r))))
  ∧ (res.2.2 ≠ None → res.2.1 = no_user)
  ∧ length (procs res.1)
    = (length (procs w)
       + (if checked then 1 else 0)
       + (if checked && negb (in_repo env) then 0 else 2))%nat
  ∧ db res.1 = db w ∧ git res.1 = git w ∧ heap res.1 = heap w.
Proof.
  intros res checked. subst res checked. unfold readGitUser, gitInRepo.
  destruct (bool_decide (scope = "local")), (in_repo env),
    (out_failed (name_read r)), (out_failed (email_read r));
    simpl; rewrite ?length_app; simpl;
    repeat split; intros; try done; try lia;
    repeat match goal with H : _ ∧ _ |- _ => destruct H end;
    try done; try (by exfalso; auto).
Qed.


(** ** Start-up *)

Lemma import_user_frame f r w :
  git (import_user f r w) = git w ∧ heap (import_user f r w) = heap w
  ∧ procs (import_user f r w) = procs w
  ∧ db (import_user f r w)
    = if usable r then (insertUser f (Name r.1) (Email r.1) (db w)).1 else db w.
Proof. unfold import_user. by destruct (usable r). Qed.

Lemma insertUser_rows f name email s :
  rows (insertUser f name email s).1 = rows s
  ∨ ∃ id, rows (insertUser f name email s).1
          = rows s ++ [mkUser id (TrimSpace name) (TrimSpace email)].
Proof.
  unfold insertUser. destruct f; [by left|]. cbv zeta.
  destruct (has_pair _ _ s); [by left|]. right. by eexists.
Qed.

Lemma has_pair_insertUser n e f name email s :
  has_pair n e s = true → has_pair n e (insertUser f name email s).1 = true.
Proof.
  intros H. destruct (insertUser_rows f name email s) as [Hr|[id Hr]];
    unfold has_pair in *; rewrite Hr; [done|].
  rewrite existsb_app, H. done.
Qed.

Lemma import_user_rows f r w :
  TrimSpace (Name r.1) = Name r.1 → TrimSpace (Email r.1) = Email r.1 →
  ∃ new, rows (db (import_user f r w)) = rows (db w) ++ new
         ∧ (length new ≤ 1)%nat ∧ Forall hydrated_row new.
Proof.
  intros Hn He. destruct (import_user_frame f r w) as (_ & _ & _ & ->).
  assert (Hnone : ∃ new, rows (db w) = rows (db w) ++ new
                         ∧ (length new ≤ 1)%nat ∧ Forall hydrated_row new).
  { exists []. rewrite app_nil_r. repeat split; [simpl; lia | constructor]. }
  destruct (usable r) eqn:Hu; [|done].
  destruct (insertUser_rows f (Name r.1) (Email r.1) (db w)) as [->|[id ->]]; [done|].
  eexists [_]. split; [done|]. split; [done|]. constructor; [|done].
  unfold usable in Hu.
  apply andb_true_iff in Hu as [[_ H1%negb_true_iff]%andb_true_iff H2%negb_true_iff].
  apply bool_decide_eq_false in H1, H2.
  unfold hydrated_row. simpl. rewrite !TrimSpace_idempotent, Hn, He. done.
Qed.

(** The store after [hydrateFromGit], from the store before: the import
    of the global user, then inside a work tree the import of the local
    one. *)
Lemma hydrateFromGit_db st w :
  let rg := (readGitUser (global_env st) (global_reads st) "global" w).2 in
  let rl := (readGitUser (local_env st) (local_reads st) "local" w).2 in
  let s1 := if usable rg
            then (insertUser (insert_fault (global_env st)) (Name rg.1) (Email rg.1) (db w)).1
            else db w in
  db (hydrateFromGit st w)
  = if in_repo (repo_env st) && usable rl
    then (insertUser (insert_fault (repo_env st)) (Name rl.1) (Email rl.1) s1).1
    else s1.
Proof.
  intros rg rl s1. unfold hydrateFromGit.
  destruct (readGitUser (global_env st) (global_reads st) "global" w) as [w1 r1] eqn:E1.
  pose proof (readGitUser_frame (global_env st) (global_reads st) "global" w) as (Hd1 & _).
  rewrite E1 in Hd1. simpl in Hd1.
  assert (Hr1 : r1 = rg) by (subst rg; first [done | by rewrite E1]). rewrite Hr1. clear Hr1.
  unfold gitInRepo. destruct (in_repo (repo_env st)); simpl.
  - set (w3 := run _ _).
    destruct (readGitUser (local_env st) (local_reads st) "local" w3) as [w4 r2] eqn:E2.
    pose proof (readGitUser_frame (local_env st) (local_reads st) "local" w3) as (Hd2 & _).
    rewrite E2 in Hd2. simpl in Hd2.
    assert (Hr2 : r2 = rl).
    { subst rl. rewrite (readGitUser_result _ _ _ w w3). by rewrite E2. }
    rewrite Hr2. clear Hr2.
    destruct (import_user_frame (insert_fault (repo_env st)) rl w4) as (_ & _ & _ & ->).
    rewrite Hd2. subst w3. simpl.
    destruct (import_user_frame (insert_fault (global_env st)) rg w1) as (_ & _ & _ & ->).
    rewrite Hd1. done.
  - destruct (import_user_frame (insert_fault (global_env st)) rg w1) as (_ & _ & _ & ->).
    rewrite Hd1. done.
Qed.

(** X9. Hydration only adds to the store: the rows it finds stay, in
    their order, followed by at most two new rows, each with a name and an
    email that are trimmed and not empty; the constraints of the table
    hold after it, and it writes nothing to the git configuration. *)
Theorem hydrateFromGit_adds_rows st w :
  store_wf (db w) →
  let w' := hydrateFromGit st w in
  git w' = git w ∧ heap w' = heap w
  ∧ store_wf (db w')
  ∧ ∃ new, rows (db w') = rows (db w) ++ new
           ∧ (length new ≤ 2)%nat ∧ Forall hydrated_row new.
Proof.
  intros Hwf w'. subst w'. unfold hydrateFromGit.
  destruct (readGitUser (global_env st) (global_reads st) "global" w) as [w1 r1] eqn:E1.
  pose proof (readGitUser_frame (global_env st) (global_reads st) "global" w) as (Hd1 & Hh1 & Hg1).
  pose proof (readGitUser_trimmed (global_env st) (global_reads st) "global" w) as [Hn1 He1].
  rewrite E1 in Hd1, Hh1, Hg1, Hn1, He1. simpl in *.
  set (w2 := import_user (insert_fault (global_env st)) r1 w1).
  destruct (import_user_frame (insert_fault (global_env st)) r1 w1) as (Hg2 & Hh2 & _ & Hd2).
  destruct (import_user_rows (insert_fault (global_env st)) r1 w1 Hn1 He1)
    as (new1 & Hr2 & Hl1 & Hf1).
  fold w2 in Hg2, Hh2, Hd2, Hr2.
  assert (Hwf2 : store_wf (db w2)).
  { rewrite Hd2. destruct (usable r1); [apply insertUser_wf|]; by rewrite Hd1. }
  unfold gitInRepo. destruct (in_repo (repo_env st)); simpl.
  - set (w3 := run _ w2).
    destruct (readGitUser (local_env st) (local_reads st) "local" w3) as [w4 r2] eqn:E2.
    pose proof (readGitUser_frame (local_env st) (local_reads st) "local" w3) as (Hd4 & Hh4 & Hg4).
    pose proof (readGitUser_trimmed (local_env st) (local_reads st) "local" w3) as [Hn2 He2].
    rewrite E2 in Hd4, Hh4, Hg4, Hn2, He2. simpl in *.
    destruct (import_user_frame (insert_fault (repo_env st)) r2 w4) as (Hg5 & Hh5 & _ & Hd5).
    destruct (import_user_rows (insert_fault (repo_env st)) r2 w4 Hn2 He2)
      as (new2 & Hr5 & Hl2 & Hf2).
    split; [congruence|]. split; [congruence|]. split.
    + rewrite Hd5. destruct (usable r2); [apply insertUser_wf|]; by rewrite Hd4.
    + exists (new1 ++ new2). rewrite Hr5, Hd4. subst w3. simpl. rewrite Hr2, Hd1.
      rewrite app_assoc. split; [done|]. rewrite length_app.
      split; [lia | by apply Forall_app].
  - split; [congruence|]. split; [congruence|]. split; [done|].
    exists new1. rewrite Hr2, Hd1. split; [done|]. split; [lia|done].
Qed.

(** X10. Hydration is idempotent on the rows: when its inserts do not
    fail, running it again in the same environment adds no row and leaves
    the connection's last insert rowid as it was. The second run is not
    without effect on the store: each author it reads is an ignored
    insert, which spends one rowid of the AUTOINCREMENT counter. *)
Theorem hydrateFromGit_idempotent st w :
  insert_fault (global_env st) = None →
  insert_fault (repo_env st) = None →
  let rg := (readGitUser (global_env st) (global_reads st) "global" w).2 in
  let rl := (readGitUser (local_env st) (local_reads st) "local" w).2 in
  let s1 := db (hydrateFromGit st w) in
  let s2 := db (hydrateFromGit st (hydrateFromGit st w)) in
  rows s2 = rows s1
  ∧ last_insert_rowid s2 = last_insert_rowid s1
  ∧ sqlite_sequence s2
    = (sqlite_sequence s1
       + (if usable rg then 1 else 0)
       + (if in_repo (repo_env st) && usable rl then 1 else 0))%Z.
Proof.
  intros Hf1 Hf2 rg rl s1 s2. subst s2.
  rewrite (hydrateFromGit_db st (hydrateFromGit st w)). cbv zeta.
  rewrite <- (readGitUser_result _ _ "global" w), <- (readGitUser_result _ _ "local" w).
  fold rg rl s1.
  pose proof (hydrateFromGit_db st w) as Hdb. cbv zeta in Hdb. fold rg rl s1 in Hdb.
  rewrite Hf1, Hf2 in *.
  assert (Hg : usable rg = true →
               has_pair (TrimSpace (Name rg.1)) (TrimSpace (Email rg.1)) s1 = true).
  { intros Hu. rewrite Hdb, Hu.
    destruct (in_repo (repo_env st) && usable rl);
      [apply has_pair_insertUser|]; apply insertUser_has_pair. }
  assert (Hl : in_repo (repo_env st) && usable rl = true →
               has_pair (TrimSpace (Name rl.1)) (TrimSpace (Email rl.1)) s1 = true).
  { intros Hu. rewrite Hdb, Hu. apply insertUser_has_pair. }
  clear Hdb.
  destruct (usable rg) eqn:Eg;
    [rewrite (insertUser_ignored _ _ _ (Hg eq_refl))|];
    (destruct (in_repo (repo_env st) && usable rl) eqn:El;
     [rewrite insertUser_ignored by exact (Hl eq_refl)|]);
    simpl; repeat split; lia.
Qed.

(** X11. With the global author not readable and the local author
    readable inside a work tree, hydration is the insert of the trimmed
    local name and email: on an empty table it leaves exactly that row. *)
Theorem hydrateFromGit_local_only st w :
  let name := TrimSpace (out_text (name_read (local_reads st))) in
  let email := TrimSpace (out_text (email_read (local_reads st))) in
  out_failed (name_read (global_reads st)) || out_failed (email_read (global_reads st)) = true →
  in_repo (repo_env st) = true →
  in_repo (local_env st) = true →
  out_failed (name_read (local_reads st)) = false →
  out_failed (email_read (local_reads st)) = false →
  name ≠ "" → email ≠ "" →
  db (hydrateFromGit st w) = (insertUser (insert_fault (repo_env st)) name email (db w)).1
  ∧ (rows (db w) = [] → insert_fault (repo_env st) = None →
     rows (db (hydrateFromGit st w)) = [mkUser (sqlite_sequence (db w) + 1) name email]).
Proof.
  intros name email Hg Hin Hin' Hn He Hname Hemail.
  assert (Hdb : db (hydrateFromGit st w)
                = (insertUser (insert_fault (repo_env st)) name email (db w)).1).
  { rewrite hydrateFromGit_db. cbv zeta. unfold readGitUser, gitInRepo.
    rewrite Hg, Hin, Hin', Hn, He. simpl. fold name email.
    unfold usable. simpl.
    by rewrite (bool_decide_eq_false_2 _ Hname), (bool_decide_eq_false_2 _ Hemail). }
  split; [exact Hdb|]. intros Hrows Hf. rewrite Hdb, Hf. unfold insertUser, has_pair.
  rewrite Hrows. simpl. subst name email. by rewrite !TrimSpace_idempotent.
Qed.


(** ** The session never panics *)

Lemma items_of_wf h s : slice_wf h s → ∃ l, items_of h s = Some l.
Proof.
  unfold slice_wf. destruct s as [[a|] n c]; simpl.
  - intros (arr & Ha & Hc & Hn). eexists. apply (items_of_array _ _ _ _ _ Ha). lia.
  - by eexists.
Qed.

Lemma heap_ext_refl h : heap_ext h h.
Proof. intros a arr Ha. eauto. Qed.

Lemma heap_ext_trans h1 h2 h3 : heap_ext h1 h2 → heap_ext h2 h3 → heap_ext h1 h3.
Proof.
  intros H12 H23 a arr Ha.
  destruct (H12 a arr Ha) as (arr2 & Ha2 & Hl2 & Hi2).
  destruct (H23 a arr2 Ha2) as (arr3 & Ha3 & Hl3 & Hi3).
  exists arr3. split; [done|]. split; [congruence|]. auto.
Qed.

Lemma heap_ext_alloc h arr : heap_ext h (h ++ [arr]).
Proof. intros a arr0 Ha. exists arr0. split; [by apply lookup_app_l_Some|]. auto. Qed.

Lemma heap_ext_write h a arr n (u : userItem) :
  h !! a = Some arr → heap_ext h (<[a := <[n := Some u]> arr]> h).
Proof.
  intros Ha b arr0 Hb. destruct (decide (a = b)) as [<-|Hne].
  - assert (arr0 = arr) as -> by congruence.
    exists (<[n := Some u]> arr). split.
    { apply list_lookup_insert_eq. by eapply lookup_lt_Some. }
    split; [apply length_insert|]. intros i Hi.
    destruct (decide (n = i)) as [<-|Hni].
    + destruct Hi as [x Hx]. destruct (arr !! n) as [y|] eqn:E; [|done].
      rewrite list_lookup_insert_eq by (by eapply lookup_lt_Some). by eexists.
    + by rewrite list_lookup_insert_ne.
  - exists arr0. split; [by rewrite list_lookup_insert_ne|]. auto.
Qed.

Lemma slice_wf_ext h h' s : slice_wf h s → heap_ext h h' → slice_wf h' s.
Proof.
  unfold slice_wf. destruct (s_arr s) as [a|]; [|done].
  intros (arr & Ha & Hc & Hn) Hext.
  destruct (Hext a arr Ha) as (arr' & Ha' & Hl & _).
  exists arr'. split; [done|]. split; [congruence|done].
Qed.

Lemma shows_items_ext h h' s : shows_items h s → heap_ext h h' → shows_items h' s.
Proof.
  intros [Hwf (l & Hl & Hall)] Hext. split; [by eapply slice_wf_ext|].
  destruct s as [[a|] n c]; [|by exists l].
  destruct Hwf as (arr & Ha & Hc & Hn). simpl in *.
  destruct (Hext a arr Ha) as (arr' & Ha' & Hlen & Hi).
  rewrite (items_of_array _ _ _ _ _ Ha) in Hl by lia. injection Hl as <-.
  exists (take n arr'). split; [apply (items_of_array _ _ _ _ _ Ha'); lia|].
  apply Forall_lookup. intros i x Hx.
  apply lookup_take_Some in Hx as [Hx Hin].
  rewrite Forall_lookup in Hall.
  assert (Hfilled : is_Some (arr !! i ≫= id)).
  { specialize (Hall i). destruct (arr !! i) as [y|] eqn:Hy.
    - simpl. apply Hall. rewrite lookup_take_lt by done. exact Hy.
    - apply lookup_ge_None in Hy. pose proof (lookup_lt_Some _ _ _ Hx). exfalso.
      unfold Item in *. lia. }
  apply Hi in Hfilled. unfold Item in *. rewrite Hx in Hfilled. exact Hfilled.
Qed.

(** Appending an item that is not nil never panics on a slice that fits
    the heap, and loses nothing the heap held. *)
Lemma append_ext h s (u : userItem) :
  slice_wf h s →
  ∃ h' s', append s (Some u) h = Some (h', s') ∧ slice_wf h' s' ∧ heap_ext h h'.
Proof.
  intros Hwf. destruct (items_of_wf h s Hwf) as [l Hl].
  destruct (append_items h s (Some u) l Hwf Hl) as (h' & s' & Happ & Hwf' & _).
  exists h', s'. split; [done|]. split; [done|].
  unfold append in Happ. destruct (decide (s_len s < s_cap s)%nat).
  - destruct (s_arr s) as [a|]; [|done]. simpl in Happ.
    destruct (h !! a) as [arr|] eqn:Ha; [|done]. simpl in Happ.
    destruct (decide (s_len s < length arr)%nat); [|done].
    injection Happ as <- _. by apply heap_ext_write.
  - rewrite Hl in Happ. simpl in Happ. injection Happ as <- _. apply heap_ext_alloc.
Qed.

Lemma collect_ext arr : ∀ ms h v,
  Forall (λ kv : string * Item, is_Some kv.2) arr →
  Forall (λ i, i < length arr)%nat ms →
  slice_wf h v →
  ∃ h' v', collect arr ms v h = Some (h', v') ∧ slice_wf h' v' ∧ heap_ext h h'.
Proof.
  induction ms as [|i ms IH]; intros h v Harr Hms Hwf; simpl.
  { exists h, v. split; [done|]. split; [done | apply heap_ext_refl]. }
  apply Forall_cons in Hms as [Hi Hms].
  destruct (lookup_lt_is_Some_2 arr i Hi) as [kv Hkv]. rewrite Hkv. simpl.
  rewrite Forall_lookup in Harr. destruct (Harr i kv Hkv) as [u Hu]. rewrite Hu.
  destruct (append_ext h v u Hwf) as (h1 & v1 & -> & Hwf1 & Hext1). simpl.
  destruct (IH h1 v1) as (h2 & v2 & -> & Hwf2 & Hext2);
    [by apply Forall_lookup | done | done |].
  exists h2, v2. split; [done|]. split; [done | by eapply heap_ext_trans].
Qed.

Lemma mapM_keyed_some (l : list Item) :
  Forall is_Some l →
  ∃ arr, mapM keyed l = Some arr ∧ length arr = length l
         ∧ Forall (λ kv : string * Item, is_Some kv.2) arr.
Proof.
  induction 1 as [|x l [u ->] _ (arr & IH & Hlen & Harr)].
  { exists []. by repeat split. }
  exists ((FilterValue u, Some u) :: arr).
  change (mapM keyed (Some u :: l))
    with (y ← keyed (Some u); k ← mapM keyed l; mret (y :: k)).
  rewrite IH. simpl. split; [done|]. split; [by rewrite Hlen|].
  constructor; [by eexists | done].
Qed.

Section Safety.
Context `{T : Toolkit}.
Hypothesis Hrange : in_range T.

(** [apply] never panics on a filter whose view fits the heap and whose
    corpus has no nil item, and keeps both so. *)
Lemma apply_ok q fl h :
  slice_wf h (view fl) → shows_items h (all fl) →
  ∃ fl' h', apply q fl h = Some (fl', h')
            ∧ all fl' = all fl ∧ query fl' = q
            ∧ slice_wf h' (view fl') ∧ shows_items h' (all fl')
            ∧ heap_ext h h'.
Proof.
  intros Hv Hall. unfold apply.
  destruct (bool_decide (TrimSpace q = "")).
  { eexists _, _. split; [done|]. simpl. repeat split; try done; try apply Hall.
    apply heap_ext_refl. }
  destruct Hall as [Hwf (l & Hl & Hsome)]. rewrite Hl. simpl.
  destruct (mapM_keyed_some l Hsome) as (arr & -> & Hlen & Harr). simpl.
  destruct (collect_ext arr (Find q arr.*1) h (reslice0 (view fl)) Harr)
    as (h' & v' & -> & Hwf' & Hext).
  { specialize (Hrange q arr.*1). by rewrite length_fmap in Hrange. }
  { by apply slice_wf_reslice0. }
  simpl. eexists _, _. split; [done|]. simpl. repeat split; try done.
  - by eapply slice_wf_ext.
  - eapply (shows_items_ext h h' (all fl)); [|done]. split; [done|]. eauto.
Qed.

Lemma SelectedItem_ok l h : slice_wf h (items l) → ∃ it, SelectedItem l h = Some it.
Proof.
  intros Hwf. unfold SelectedItem.
  destruct (items_of_wf h (items l) Hwf) as [its ->]. simpl. by eexists.
Qed.

Lemma session_ok_same m w m' w' :
  keys m' = keys m → items (list_ m') = items (list_ m) →
  fuzzy m' = fuzzy m → heap w' = heap w →
  session_ok m w → session_ok m' w'.
Proof. unfold session_ok. by intros -> -> -> ->. Qed.

Lemma setGitUser_frame env scope u w :
  db (setGitUser env scope u w).1 = db w ∧ heap (setGitUser env scope u w).1 = heap w.
Proof.
  unfold setGitUser. by destruct (name_fault env), (email_fault env).
Qed.

Lemma refilter_ok q m w :
  session_ok m w →
  ∃ m' w', refilter q m w = Some (m', w') ∧ session_ok m' w'.
Proof.
  intros (Hk & _ & Hv & Hall). unfold refilter.
  destruct (apply_ok q (fuzzy m) (heap w) Hv Hall)
    as (fl' & h' & -> & Hall' & _ & Hv' & Hs' & _).
  simpl. eexists _, _. split; [done|]. by split; [|split; [|split]].
Qed.

Lemma show_users_ok users m w :
  keys m = newKeymap →
  ∃ m' w', show_users users m w = Some (m', w') ∧ session_ok m' w'.
Proof.
  intros Hk. destruct (show_users_shows users m w) as (h & s & -> & Hwf & Hits).
  eexists _, _. split; [done|]. split; [done|]. split; [done|]. split; [done|].
  split; [done|]. exists (Some <$> users). split; [done|].
  apply Forall_fmap, Forall_forall. intros x _. by eexists.
Qed.

Lemma applySelected_ok scope env m w :
  session_ok m w →
  ∃ m' c w', applySelected scope env m w = Some (m', c, w') ∧ session_ok m' w'.
Proof.
  intros Hok. pose proof Hok as (_ & Hitems & Hv & _).
  destruct (SelectedItem_ok (list_ m) (heap w)) as [sel Hsel]; [by rewrite Hitems|].
  unfold applySelected, gitInRepo. rewrite Hsel. simpl.
  destruct sel as [it|]; [|by eexists _, _, _].
  destruct (bool_decide (scope = "local")), (in_repo env); simpl;
    try (eexists _, _, _; split; [reflexivity|];
         by eapply session_ok_same; [..|exact Hok]).
  all: match goal with
       | |- context [setGitUser ?e ?s ?u ?w0] =>
           pose proof (setGitUser_frame e s u w0) as [_ Hh];
           destruct (setGitUser e s u w0) as [w2 [err|]]
       end; simpl in Hh;
       eexists _, _, _; (split; [reflexivity|]);
       by eapply session_ok_same; [..|exact Hok].
Qed.

Lemma updateListKeys_ok k env m w :
  session_ok m w →
  ∃ m' c w', updateListKeys k env m w = Some (m', c, w') ∧ session_ok m' w'.
Proof.
  intros Hok. pose proof Hok as (Hk & Hitems & Hv & _).
  assert (Hleaf : ∀ m' (c : Cmd), keys m' = keys m → items (list_ m') = items (list_ m) →
                          fuzzy m' = fuzzy m →
                          ∃ m'' c' w', (Some (m', c, w) : Step) = Some (m'', c', w') ∧ session_ok m'' w').
  { intros m' c ? ? ?. eexists _, _, _. split; [done|]. by eapply session_ok_same. }
  destruct (SelectedItem_ok (list_ m) (heap w)) as [sel Hsel]; [by rewrite Hitems|].
  unfold updateListKeys.
  destruct (Matches k (Quit (keys m))); [by apply Hleaf|].
  destruct (Matches k (Help (keys m))); [by apply Hleaf|].
  destruct (Matches k (Filter (keys m))); [by apply Hleaf|].
  destruct (bool_decide (KType k = KeyRunes) && Focused (filter_ m)).
  { destruct (refilter_ok (Value (filter_ (set_filter (input_Update k (filter_ m)) m)))
                (set_filter (input_Update k (filter_ m)) m) w)
      as (m' & w' & -> & Hok'); [by eapply session_ok_same; [..|exact Hok]|].
    simpl. by eexists _, _, _. }
  destruct (bool_decide (KType k = KeyEnter)); [by apply applySelected_ok|].
  destruct (bool_decide (KType k = KeyEsc) && Focused (filter_ m)).
  { destruct (refilter_ok "" (set_filter (SetValue "" (Blur (filter_ m))) m) w)
      as (m' & w' & -> & Hok'); [by eapply session_ok_same; [..|exact Hok]|].
    simpl. eexists _, _, _. split; [done|]. by eapply session_ok_same; [..|exact Hok']. }
  destruct (Matches k (Add (keys m))); [by apply Hleaf|].
  destruct (Matches k (Delete (keys m))).
  { rewrite Hsel. simpl. destruct sel as [it|]; [|by apply Hleaf].
    destruct (deleteUser (delete_fault env) (ID it) (db w)) as [s1 e1]. cbv zeta.
    destruct (allUsers (select_fault env) _) as [users e2].
    destruct (show_users_ok users m (set_db s1 w) Hk) as (m' & w' & -> & Hok').
    simpl. eexists _, _, _. split; [done|]. by eapply session_ok_same; [..|exact Hok']. }
  destruct (Matches k (Edit (keys m))).
  { rewrite Hsel. simpl. destruct sel as [it|]; by apply Hleaf. }
  destruct (Matches k (Global (keys m))); [by apply applySelected_ok|].
  destruct (Matches k (Local (keys m))); [by apply applySelected_ok|].
  by apply Hleaf.
Qed.

Lemma updateFormKeys_ok k env m w :
  session_ok m w →
  ∃ m' c w', updateFormKeys k env m w = Some (m', c, w') ∧ session_ok m' w'.
Proof.
  intros Hok. pose proof Hok as (Hk & Hitems & Hv & _).
  assert (Hleaf : ∀ m' (c : Cmd) w0, keys m' = keys m → items (list_ m') = items (list_ m) →
                          fuzzy m' = fuzzy m → heap w0 = heap w →
                          ∃ m'' c' w', (Some (m', c, w0) : Step) = Some (m'', c', w') ∧ session_ok m'' w').
  { intros m' c w0 ? ? ? ?. eexists _, _, _. split; [done|]. by eapply session_ok_same. }
  destruct (SelectedItem_ok (list_ m) (heap w)) as [sel Hsel]; [by rewrite Hitems|].
  unfold updateFormKeys.
  destruct (Matches k (Clear (keys m))); [by apply Hleaf|].
  destruct (bool_decide (KType k = KeyEnter)); [|by apply Hleaf].
  destruct (Focused (form1 m)); [by apply Hleaf|].
  destruct (_ || _); [by apply Hleaf|].
  assert (Hsub : ∀ o : Item,
    ∃ m' c w',
      (let w1 := match o with
                 | Some it => set_db (deleteUser (delete_fault env) (ID it) (db w)).1 w
                 | None => w
                 end in
       match insertUser (insert_fault env) (TrimSpace (Value (form1 m)))
               (TrimSpace (Value (form2 m))) (db w1) with
       | (_, (_, Some e)) => Some (set_errMsg e m, NoCmd, w1)
       | (s1, (_, None)) =>
           let w2 := set_db s1 w1 in
           let '(users, _) := allUsers (select_fault env) (db w2) in
           '(m2, w3) ← show_users users m w2;
           Some (set_status "saved" (set_mode modeList m2), NoCmd, w3)
       end) = Some (m', c, w') ∧ session_ok m' w').
  { intros o. cbv zeta.
    set (w1 := match o with Some it => _ | None => w end).
    assert (Hh1 : heap w1 = heap w) by (subst w1; by destruct o).
    destruct (insertUser (insert_fault env) _ _ (db w1)) as [s1 [id [e|]]];
      [by apply Hleaf|].
    destruct (allUsers (select_fault env) _) as [users e2].
    destruct (show_users_ok users m (set_db s1 w1) Hk) as (m' & w' & -> & Hok').
    simpl. eexists _, _, _. split; [done|]. by eapply session_ok_same; [..|exact Hok']. }
  destruct (bool_decide (mode_ m = modeAdd)); [exact (Hsub None) | rewrite Hsel; exact (Hsub sel)].
Qed.

(** From a state of the session every message is handled without a
    panic, whatever the environment decides, and leads to a state of the
    session again. *)
Lemma Update_ok msg env m w :
  session_ok m w →
  ∃ m' c w', Update msg env m w = Some (m', c, w') ∧ session_ok m' w'.
Proof.
  intros Hok. destruct msg as [wd ht|k]; simpl.
  - eexists _, _, _. split; [done|]. by eapply session_ok_same; [..|exact Hok].
  - destruct (mode_ m);
      [by apply updateListKeys_ok | by apply updateFormKeys_ok ..].
Qed.

(** X12. The program starts in the list mode with no error, the filter
    not focused and the view showing the users it was given, in their
    order; from there no sequence of key presses makes it panic, whatever
    the environment decides, and after each of them the list holds the
    view of the filter, and the view and the corpus fit the backing
    arrays, the corpus without nil items. The matcher is only asked to
    return positions of its input. *)
Theorem session_never_panics users w evs :
  ∃ m0 w0,
    initialModel users w = Some (m0, w0)
    ∧ session_ok m0 w0
    ∧ mode_ m0 = modeList ∧ errMsg m0 = "" ∧ Focused (filter_ m0) = false
    ∧ items_of (heap w0) (view (fuzzy m0)) = Some (Some <$> users)
    ∧ db w0 = db w ∧ git w0 = git w
    ∧ ∃ m' w', session evs m0 w0 = Some (m', w') ∧ session_ok m' w'.
Proof.
  unfold initialModel.
  destruct (items_of_users_items users (heap w)) as (h & s & -> & Hwf & Hits).
  simpl. eexists _, _. split; [done|].
  match goal with |- session_ok ?m0 ?w0 ∧ _ => assert (Hok : session_ok m0 w0) end.
  { do 3 (split; [done|]). split; [done|]. exists (Some <$> users). split; [done|].
    apply Forall_fmap, Forall_forall. intros x _. by eexists. }
  split; [exact Hok|]. do 6 (split; [done|]).
  revert Hok. generalize (set_heap h w).
  match goal with |- ∀ w0, session_ok ?m0 _ → _ => generalize m0 end.
  induction evs as [|[k env] evs IH]; intros m0 w0 Hok; simpl; [by eexists _, _|].
  destruct (Update_ok (KeyPress k) env m0 w0 Hok) as (m1 & c & w1 & Hu & Hok1).
  simpl in Hu. rewrite Hu.
  simpl. by apply IH.
Qed.
End Safety.


(** ** What a message can change *)

Section Frames.
Context `{T : Toolkit}.

Ltac unfold_step H :=
  lazymatch type of H with
  | Some _ = Some _ => injection H as <- <- <-
  | None = Some _ => discriminate H
  | (if ?b then _ else _) = Some _ => destruct b eqn:?
  | mbind _ ?x = Some _ => let E := fresh "E" in destruct x eqn:E; simpl in H
  | (let '(_, _) := ?x in _) = Some _ => destruct x eqn:?
  | match ?x with _ => _ end = Some _ => destruct x eqn:?
  end.

Ltac use_frames :=
  repeat match goal with
         | E : refilter _ _ _ = Some _ |- _ =>
             apply refilter_messages in E as (? & ? & ? & ? & ? & ?)
         | E : show_users _ _ _ = Some _ |- _ =>
             apply show_users_messages in E as (? & ? & ? & ? & ? & ?)
         end.

Lemma applySelected_frame scope env m w m' c w' :
  applySelected scope env m w = Some (m', c, w') →
  db w' = db w ∧ heap w' = heap w ∧ mode_ m' = mode_ m ∧ c = NoCmd
  ∧ list_ m' = list_ m ∧ fuzzy m' = fuzzy m ∧ filter_ m' = filter_ m.
Proof.
  unfold applySelected. intros H.
  destruct (SelectedItem (list_ m) (heap w)) as [[it|]|]; simpl in H;
    [|by simplify_eq..].
  match type of H with
  | (let '(_, _) := ?g in _) = _ =>
      assert (Hg : db g.2 = db w ∧ heap g.2 = heap w)
        by (unfold gitInRepo; by destruct (bool_decide (scope = "local")));
      destruct g as [outside w1]
  end.
  simpl in Hg. destruct Hg as [Hd Hh].
  destruct outside; [by simplify_eq|].
  pose proof (setGitUser_frame env scope it w1) as [Hd' Hh'].
  destruct (setGitUser env scope it w1) as [w2 [e|]]; simplify_eq; simpl in *;
    repeat split; congruence.
Qed.

(** X13. The store is written by two actions only: a message after which
    the store differs is a key press that matches the delete binding in
    the list, or Enter in a form whose name field is not focused. *)
Theorem store_written_only_by_delete_or_submit msg env m w m' c w' :
  Update msg env m w = Some (m', c, w') →
  db w' ≠ db w →
  ∃ k, msg = KeyPress k
       ∧ ((mode_ m = modeList ∧ Matches k (Delete (keys m)) = true)
          ∨ (mode_ m ≠ modeList ∧ KType k = KeyEnter ∧ Focused (form1 m) = false)).
Proof.
  intros H Hne. destruct msg as [wd ht|k]; simpl in H.
  { injection H as <- <- <-. done. }
  exists k. split; [done|].
  destruct (mode_ m) eqn:Hm; [left | right ..].
  - split; [done|]. unfold updateListKeys in H.
    repeat (first [ match type of H with
                    | applySelected _ _ _ _ = Some _ =>
                        apply applySelected_frame in H as (? & _); done
                    end
                  | unfold_step H ]);
      simplify_eq; use_frames; simpl in *; first [done | congruence].
  - split; [done|]. unfold updateFormKeys in H.
    repeat unfold_step H; simplify_eq; use_frames; simpl in *;
      try match goal with
          | Hb : bool_decide (KType k = KeyEnter) = true |- _ =>
              apply bool_decide_eq_true in Hb
          end;
      first [done | congruence].
  - split; [done|]. unfold updateFormKeys in H.
    repeat unfold_step H; simplify_eq; use_frames; simpl in *;
      try match goal with
          | Hb : bool_decide (KType k = KeyEnter) = true |- _ =>
              apply bool_decide_eq_true in Hb
          end;
      first [done | congruence].
Qed.

(** X14. The git configuration is written, and a subprocess started, by
    the apply actions only: a message after which the configuration or
    the list of subprocesses differs is, in the list, Enter or a key press
    that matches the global or the local binding. *)
Theorem git_touched_only_by_apply msg env m w m' c w' :
  Update msg env m w = Some (m', c, w') →
  git w' ≠ git w ∨ procs w' ≠ procs w →
  ∃ k, msg = KeyPress k ∧ mode_ m = modeList
       ∧ (KType k = KeyEnter
          ∨ Matches k (Global (keys m)) = true
          ∨ Matches k (Local (keys m)) = true).
Proof.
  intros H Hne.
  assert (Hsame : git w' = git w → procs w' = procs w → False) by (intros; tauto).
  clear Hne. destruct msg as [wd ht|k]; simpl in H.
  { injection H as <- <- <-. by destruct Hsame. }
  destruct (mode_ m) eqn:Hm.
  - exists k. split; [done|]. split; [done|]. unfold updateListKeys in H.
    repeat (first [ match type of H with
                    | applySelected _ _ _ _ = Some _ =>
                        clear H Hsame;
                        try match goal with
                            | Hb : bool_decide (KType k = KeyEnter) = true |- _ =>
                                apply bool_decide_eq_true in Hb
                            end; by auto
                    end
                  | unfold_step H ]);
      simplify_eq; use_frames; simpl in *; exfalso; apply Hsame; congruence.
  - exfalso. unfold updateFormKeys in H.
    repeat unfold_step H; simplify_eq; use_frames; simpl in *;
      apply Hsame;
      first [ congruence | assumption
            | repeat match goal with o : option User |- _ => destruct o end;
              simpl in *; first [congruence | assumption] ].
  - exfalso. unfold updateFormKeys in H.
    repeat unfold_step H; simplify_eq; use_frames; simpl in *;
      apply Hsame;
      first [ congruence | assumption
            | repeat match goal with o : option User |- _ => destruct o end;
              simpl in *; first [congruence | assumption] ].
Qed.

(** X15. The modes change in three ways only: from the list to the add
    form by a key press that matches the add binding, from the list to
    the edit form by one that matches the edit binding, and from a form
    to the list by one that matches the cancel binding or by Enter. No
    message leads from one form to the other, and no key press in a form
    asks to quit. *)
Theorem mode_changes msg env m w m' c w' :
  Update msg env m w = Some (m', c, w') →
  (mode_ m ≠ modeList → c ≠ QuitCmd)
  ∧ (mode_ m' ≠ mode_ m →
     ∃ k, msg = KeyPress k
          ∧ ((mode_ m = modeList ∧ mode_ m' = modeAdd ∧ Matches k (Add (keys m)) = true)
             ∨ (mode_ m = modeList ∧ mode_ m' = modeEdit
                ∧ Matches k (Edit (keys m)) = true)
             ∨ (mode_ m ≠ modeList ∧ mode_ m' = modeList
                ∧ (Matches k (Clear (keys m)) = true ∨ KType k = KeyEnter)))).
Proof.
  intros H. destruct msg as [wd ht|k]; simpl in H.
  { injection H as <- <- <-. by split. }
  destruct (mode_ m) eqn:Hm.
  - split; [done|]. intros Hne. exists k. split; [done|]. unfold updateListKeys in H.
    repeat (first [ match type of H with
                    | applySelected _ _ _ _ = Some _ =>
                        apply applySelected_frame in H as (_ & _ & ? & _); congruence
                    end
                  | unfold_step H ]);
      simplify_eq; use_frames; simpl in *; first [congruence | by auto 6].
  - unfold updateFormKeys in H.
    repeat unfold_step H; simplify_eq; use_frames; simpl in *;
      (split; [done|]); intros Hne; first [congruence | exists k];
      (split; [done|]); right; right;
      try match goal with
          | Hb : bool_decide (KType k = KeyEnter) = true |- _ =>
              apply bool_decide_eq_true in Hb
          end; by auto.
  - unfold updateFormKeys in H.
    repeat unfold_step H; simplify_eq; use_frames; simpl in *;
      (split; [done|]); intros Hne; first [congruence | exists k];
      (split; [done|]); right; right;
      try match goal with
          | Hb : bool_decide (KType k = KeyEnter) = true |- _ =>
              apply bool_decide_eq_true in Hb
          end; by auto.
Qed.

(** X16. Where a quit comes from. The program asks to quit of its own on
    a key press in the list that matches the quit binding, whatever else is
    going on, and changes nothing then. Any other quit is the list's: the
    key press matched no binding and no case of the list mode, was handed
    to the list, and the command the list returned for it is [tea.Quit]. A
    form never asks to quit, nor does a resize. *)
Theorem quit_is_the_binding_or_the_list msg env m w :
  (∀ k, msg = KeyPress k → mode_ m = modeList → Matches k (Quit (keys m)) = true →
        Update msg env m w = Some (m, QuitCmd, w))
  ∧ (∀ m' w', Update msg env m w = Some (m', QuitCmd, w') →
       ∃ k, msg = KeyPress k ∧ mode_ m = modeList ∧ w' = w
            ∧ ((Matches k (Quit (keys m)) = true ∧ m' = m)
               ∨ (Matches k (Quit (keys m)) = false
                  ∧ list_Cmd k (s_len (items (list_ m))) (index (list_ m)) = QuitCmd
                  ∧ m' = set_list
                           (mkList (items (list_ m))
                              (list_Update k (s_len (items (list_ m))) (index (list_ m))))
                           m))).
Proof.
  split.
  - intros k -> Hm Hq. simpl. rewrite Hm. unfold updateListKeys. by rewrite Hq.
  - intros m' w' H. remember QuitCmd as c eqn:Hc in H.
    destruct msg as [wd ht|k]; simpl in H; [by simplify_eq|].
    exists k. split; [done|].
    destruct (mode_ m) eqn:Hm.
    + split; [done|]. unfold updateListKeys in H.
      repeat (first [ match type of H with
                      | applySelected _ _ _ _ = Some _ =>
                          apply applySelected_frame in H as (_ & _ & _ & ? & _); congruence
                      end
                    | unfold_step H ]);
        first [ discriminate Hc
              | split; [done|]; first [left; by split | right; by repeat split] ].
    + exfalso. unfold updateFormKeys in H. repeat unfold_step H; by simplify_eq.
    + exfalso. unfold updateFormKeys in H. repeat unfold_step H; by simplify_eq.
Qed.

(** X17. With nothing selected (the list is empty, or the cursor is past
    its items) no key press in the list writes the store or the git
    configuration, starts a subprocess or raises an error; the only mode
    it can lead to is the add form. *)
Theorem nothing_selected_changes_nothing k env m w m' c w' :
  mode_ m = modeList →
  SelectedItem (list_ m) (heap w) = Some None →
  Update (KeyPress k) env m w = Some (m', c, w') →
  db w' = db w ∧ git w' = git w ∧ procs w' = procs w ∧ errMsg m' = errMsg m
  ∧ (mode_ m' = modeList ∨ mode_ m' = modeAdd).
Proof.
  intros Hm Hsel H. simpl in H. rewrite Hm in H.
  unfold updateListKeys, applySelected in H. rewrite Hsel in H.
  repeat unfold_step H; simplify_eq; use_frames; simpl in *;
    repeat split; first [congruence | by auto | left; congruence].
Qed.
End Frames.


(** ** What the keys do *)

Lemma delete_is_no_binding k :
  KType k = KeyDelete → Forall (λ b, Matches k b = false) (bindings newKeymap).
Proof.
  destruct k as [t r a]. simpl. intros ->. unfold Matches, KeyString. simpl.
  destruct a; repeat constructor; first [reflexivity | apply bool_decide_eq_false; compute_done].
Qed.

Lemma esc_is_no_list_binding k :
  KType k = KeyEsc →
  Forall (λ b, Matches k b = false)
    [Quit newKeymap; Help newKeymap; Filter newKeymap; Add newKeymap;
     Delete newKeymap; Edit newKeymap; Global newKeymap; Local newKeymap].
Proof.
  destruct k as [t r a]. simpl. intros ->. unfold Matches, KeyString. simpl.
  destruct a; repeat constructor; first [reflexivity | apply bool_decide_eq_false; compute_done].
Qed.

Lemma backspace_is_delete k :
  KType k = KeyBackspace → Alt k = false →
  Matches k (Delete newKeymap) = true
  ∧ Forall (λ b, Matches k b = false)
      [Quit newKeymap; Help newKeymap; Filter newKeymap; Add newKeymap].
Proof.
  destruct k as [t r a]. simpl. intros -> ->. unfold Matches, KeyString. simpl.
  split; [first [reflexivity | apply bool_decide_eq_true; compute_done]|].
  repeat constructor; first [reflexivity | apply bool_decide_eq_false; compute_done].
Qed.

Ltac use_bindings H :=
  unfold bindings in H;
  repeat match type of H with
         | Forall _ (_ :: _) => apply Forall_cons in H as [? H]
         end;
  clear H.

Section Keys.
Context `{T : Toolkit}.

(** X18. The Delete key deletes nothing: the binding of the delete
    action is written "del", and the key's name is "delete", so in the
    list the key press matches no binding and is handed to the list, which
    moves its cursor and returns its command. The store and the rest of
    the world are untouched. *)
Theorem delete_key_reaches_the_list k env m w :
  keys m = newKeymap → mode_ m = modeList → KType k = KeyDelete →
  Update (KeyPress k) env m w
  = Some (set_list (mkList (items (list_ m))
                      (list_Update k (s_len (items (list_ m))) (index (list_ m)))) m,
          list_Cmd k (s_len (items (list_ m))) (index (list_ m)), w).
Proof.
  intros Hk Hm Ht. simpl. rewrite Hm. unfold updateListKeys. rewrite Hk.
  pose proof (delete_is_no_binding k Ht) as Hb. use_bindings Hb.
  repeat match goal with E : Matches k _ = false |- _ => rewrite E; clear E end.
  rewrite Ht. reflexivity.
Qed.

(** X19. Esc in the list. While the filter is focused it empties and
    blurs the filter and shows the whole corpus again: the view becomes
    the corpus slice itself, without a copy and without a panic, and the
    world is untouched. While the filter is not focused the cancel
    binding is not consulted and the key press is handed to the list,
    whose command is returned. *)
Theorem esc_clears_the_filter k env m w :
  keys m = newKeymap → mode_ m = modeList → KType k = KeyEsc →
  ∃ m',
    Update (KeyPress k) env m w
    = Some (m',
            if Focused (filter_ m) then NoCmd
            else list_Cmd k (s_len (items (list_ m))) (index (list_ m)),
            w)
    ∧ if Focused (filter_ m) then
        filter_ m' = mkInput "" false
        ∧ fuzzy m' = mkFuzzy (all (fuzzy m)) (all (fuzzy m)) ""
        ∧ items (list_ m') = all (fuzzy m)
        ∧ status m' = "filter cleared" ∧ errMsg m' = errMsg m
        ∧ mode_ m' = modeList
      else
        m' = set_list (mkList (items (list_ m))
                         (list_Update k (s_len (items (list_ m))) (index (list_ m)))) m.
Proof.
  intros Hk Hm Ht. simpl. rewrite Hm. unfold updateListKeys. rewrite Hk.
  pose proof (esc_is_no_list_binding k Ht) as Hb. use_bindings Hb.
  repeat match goal with E : Matches k _ = false |- _ => rewrite E; clear E end.
  rewrite Ht. destruct (Focused (filter_ m)) eqn:Hf; simpl.
  - replace (set_heap (heap w) w) with w by by destruct w.
    eexists. split; [reflexivity|]. by repeat split.
  - eexists. split; reflexivity.
Qed.

(** X20. Backspace in the list, with an identity selected and a store
    that answers: the rows of the selected id are deleted and no other,
    and the list is loaded again from the store, so that it shows the rows
    left, ordered by name, unfiltered, the stored query emptied while the
    filter input keeps its text and its focus. Whether the filter is
    focused makes no difference. *)
Theorem backspace_deletes_and_reloads k env m w it :
  keys m = newKeymap → mode_ m = modeList →
  KType k = KeyBackspace → Alt k = false →
  SelectedItem (list_ m) (heap w) = Some (Some it) →
  delete_fault env = None → select_fault env = None →
  ∃ m' w',
    Update (KeyPress k) env m w = Some (m', NoCmd, w')
    ∧ (∀ u, u ∈ rows (db w') ↔ u ∈ rows (db w) ∧ ID u ≠ ID it)
    ∧ items_of (heap w') (items (list_ m')) = Some (Some <$> order_by_name (rows (db w')))
    ∧ view (fuzzy m') = items (list_ m') ∧ all (fuzzy m') = items (list_ m')
    ∧ query (fuzzy m') = "" ∧ filter_ m' = filter_ m
    ∧ status m' = "deleted" ∧ errMsg m' = errMsg m ∧ mode_ m' = modeList
    ∧ git w' = git w ∧ procs w' = procs w.
Proof.
  intros Hk Hm Ht Ha Hsel Hdel Hall. simpl. rewrite Hm. unfold updateListKeys. rewrite Hk.
  destruct (backspace_is_delete k Ht Ha) as [Hd Hb]. use_bindings Hb.
  repeat match goal with E : Matches k _ = false |- _ => rewrite E; clear E end.
  rewrite Hd, Ht, Hsel, Hdel, Hall. simpl.
  match goal with
  | |- context [show_users ?us ?m0 ?w0] =>
      destruct (show_users_shows us m0 w0) as (h & s & -> & Hwf & Hits)
  end.
  simpl. eexists _, _. split; [reflexivity|]. simpl.
  split.
  { intros u. rewrite list_elem_of_filter. tauto. }
  by repeat split.
Qed.

(** X21. A valid submit of the add form, with a store that answers:
    every row the table had is kept, exactly one row holds the trimmed
    pair, the list is loaded again from the store and shows its rows
    ordered by name, unfiltered, and the program is back in the list. The
    selection is not read, the buffers of the form and the error message
    are left as they were. *)
Theorem add_submit_saves k env m w :
  let name := TrimSpace (Value (form1 m)) in
  let email := TrimSpace (Value (form2 m)) in
  keys m = newKeymap → mode_ m = modeAdd →
  KType k = KeyEnter → Focused (form1 m) = false →
  name ≠ "" → email ≠ "" → Contains email "@" = true →
  store_wf (db w) →
  insert_fault env = None → select_fault env = None →
  ∃ m' w',
    Update (KeyPress k) env m w = Some (m', NoCmd, w')
    ∧ db w' = (insertUser None name email (db w)).1
    ∧ (∀ u, u ∈ rows (db w) → u ∈ rows (db w'))
    ∧ count_pair name email (db w') = 1%nat
    ∧ items_of (heap w') (items (list_ m')) = Some (Some <$> order_by_name (rows (db w')))
    ∧ view (fuzzy m') = items (list_ m') ∧ query (fuzzy m') = ""
    ∧ mode_ m' = modeList ∧ status m' = "saved" ∧ errMsg m' = errMsg m
    ∧ form1 m' = form1 m ∧ form2 m' = form2 m
    ∧ git w' = git w ∧ procs w' = procs w.
Proof.
  intros name email Hk Hm Ht Hf Hn He Hat Hwf Hins Hall.
  assert (Hnn : TrimSpace name = name) by apply TrimSpace_idempotent.
  assert (Hee : TrimSpace email = email) by apply TrimSpace_idempotent.
  assert (Hone : count_pair name email (insertUser None name email (db w)).1 = 1%nat).
  { apply count_pair_one; [by apply insertUser_wf|].
    pose proof (insertUser_has_pair name email (db w)) as Hhas.
    by rewrite Hnn, Hee in Hhas. }
  assert (Hkept : ∀ u, u ∈ rows (db w) → u ∈ rows (insertUser None name email (db w)).1).
  { intros u Hu. destruct (insertUser_rows None name email (db w)) as [->|[id ->]];
      [done|]. apply elem_of_app. by left. }
  assert (Hok : (insertUser None name email (db w)).2.2 = None).
  { unfold insertUser. by destruct (has_pair _ _ _). }
  remember (insertUser None name email (db w)) as r eqn:Er.
  simpl. rewrite Hm. unfold updateFormKeys. rewrite Hk.
  destruct (enter_is_no_binding k Ht) as (_ & _ & _ & ->).
  rewrite Ht, Hf. simpl. fold name email.
  rewrite (bool_decide_eq_false_2 _ Hn), (bool_decide_eq_false_2 _ He), Hat. simpl.
  rewrite Hm. simpl. rewrite Hins, <- Er, Hall.
  destruct r as [s1 [id oe]]. simpl in Hok. subst oe. simpl.
  match goal with
  | |- context [show_users ?us ?m0 ?w0] =>
      destruct (show_users_shows us m0 w0) as (h & s & -> & Hwf' & Hits)
  end.
  simpl. eexists _, _. split; [reflexivity|]. simpl. by repeat split.
Qed.

(** X22. A submit of the edit form whose insert fails has already
    deleted the edited identity: the rows of its id are gone from the
    store and nothing is inserted, the error of the insert is shown, and
    the form stays open on a list that still shows the identity. *)
Theorem failed_edit_save_loses_row k env m w it e :
  let name := TrimSpace (Value (form1 m)) in
  let email := TrimSpace (Value (form2 m)) in
  keys m = newKeymap → mode_ m = modeEdit →
  KType k = KeyEnter → Focused (form1 m) = false →
  name ≠ "" → email ≠ "" → Contains email "@" = true →
  SelectedItem (list_ m) (heap w) = Some (Some it) →
  delete_fault env = None → insert_fault env = Some e →
  ∃ w',
    Update (KeyPress k) env m w = Some (set_errMsg e m, NoCmd, w')
    ∧ (∀ u, u ∈ rows (db w') ↔ u ∈ rows (db w) ∧ ID u ≠ ID it)
    ∧ heap w' = heap w ∧ git w' = git w ∧ procs w' = procs w.
Proof.
  intros name email Hk Hm Ht Hf Hn He Hat Hsel Hdel Hins.
  simpl. rewrite Hm. unfold updateFormKeys. rewrite Hk.
  destruct (enter_is_no_binding k Ht) as (_ & _ & _ & ->).
  rewrite Ht, Hf. simpl. fold name email.
  rewrite (bool_decide_eq_false_2 _ Hn), (bool_decide_eq_false_2 _ He), Hat. simpl.
  rewrite Hm, Hsel. simpl. rewrite Hdel, Hins. simpl.
  eexists. split; [reflexivity|]. simpl. split; [|done].
  intros u. rewrite list_elem_of_filter. tauto.
Qed.

(** X23. An apply that succeeds, in either scope: the global one does
    not ask whether the directory is a work tree and starts the two
    [git config --global] writes only; the local one, inside a work tree,
    starts [git rev-parse] and then the two writes without the flag. Both
    write the name and the email of the selected identity in their scope,
    leave the other scope and the store as they were, and set the status
    line, not the error message. *)
Theorem applySelected_writes_scope (global : bool) env m w it :
  let scope := if global then "global" else "local" in
  let flag := if global then ["--global"] else [] in
  SelectedItem (list_ m) (heap w) = Some (Some it) →
  (global = false → in_repo env = true) →
  name_fault env = None → email_fault env = None →
  ∃ w',
    applySelected scope env m w
    = Some (set_status ("set " +:+ scope +:+ ": " +:+ Name it +:+ " <" +:+ Email it +:+ ">") m,
            NoCmd, w')
    ∧ procs w'
      = procs w
        ++ (if global then [] else [["git"; "rev-parse"; "--is-inside-work-tree"]])
        ++ [["git"; "config"] ++ flag ++ ["user.name"; Name it];
            ["git"; "config"] ++ flag ++ ["user.email"; Email it]]
    ∧ scope_name global (git w') = Some (Name it)
    ∧ scope_email global (git w') = Some (Email it)
    ∧ scope_name (negb global) (git w') = scope_name (negb global) (git w)
    ∧ scope_email (negb global) (git w') = scope_email (negb global) (git w)
    ∧ db w' = db w ∧ heap w' = heap w.
Proof.
  intros scope flag Hsel Hin Hn He. subst scope flag.
  unfold applySelected. rewrite Hsel. simpl.
  destruct global; simpl.
  - unfold setGitUser. rewrite Hn, He. simpl.
    eexists. split; [reflexivity|]. simpl. rewrite <- !app_assoc. by repeat split.
  - unfold gitInRepo. rewrite Hin by done. simpl.
    unfold setGitUser. rewrite Hn, He. simpl.
    eexists. split; [reflexivity|]. simpl. rewrite <- !app_assoc. by repeat split.
Qed.
End Keys.


(** ** The theorems above at concrete inputs *)

Lemma reference_in_range : in_range reference_toolkit.
Proof.
  intros q data. simpl. destruct q as [|a q]; [constructor|].
  apply Forall_forall. intros i Hi.
  destruct (rank_all_ranked byte_matcher (String a q) data) as [Hr _].
  apply Hr in Hi as (s & Hs & _). by apply lookup_lt_Some in Hs.
Qed.

Lemma two_users_wf : store_wf (db two_users).
Proof. unfold store_wf. compute_done. Qed.

Section MoreRuns.
#[local] Existing Instance reference_toolkit.

Lemma insertUser_fresh_witness :
  store_wf (db two_users)
  ∧ has_pair (TrimSpace " Cy") (TrimSpace "c@x.com ") (db two_users) = false
  ∧ let r := insertUser None " Cy" "c@x.com " (db two_users) in
    r.2.2 = None
    ∧ rows r.1 = rows (db two_users) ++ [mkUser r.2.1 (TrimSpace " Cy") (TrimSpace "c@x.com ")]
    ∧ (∀ u, u ∈ rows (db two_users) → (ID u < r.2.1)%Z)
    ∧ last_insert_rowid r.1 = r.2.1
    ∧ store_wf r.1.
Proof.
  split; [exact two_users_wf|]. split; [reflexivity|].
  exact (insertUser_fresh (db two_users) " Cy" "c@x.com " two_users_wf eq_refl).
Defined.

Lemma insert_delete_round_trip_witness :
  store_wf (db two_users)
  ∧ has_pair (TrimSpace "Cy") (TrimSpace "c@x.com") (db two_users) = false
  ∧ let r := insertUser None "Cy" "c@x.com" (db two_users) in
    let s' := (deleteUser None r.2.1 r.1).1 in
    rows s' = rows (db two_users)
    ∧ (has_pair (TrimSpace "Di") (TrimSpace "d@x.com") s' = false →
       (insertUser None "Di" "d@x.com" s').2 = ((r.2.1 + 1)%Z, None)).
Proof.
  split; [exact two_users_wf|]. split; [reflexivity|].
  exact (insert_delete_round_trip (db two_users) "Cy" "c@x.com" "Di" "d@x.com"
           two_users_wf eq_refl).
Defined.

Lemma store_operations_keep_constraints_witness :
  store_wf (db two_users)
  ∧ (∀ f name email, store_wf (insertUser f name email (db two_users)).1)
  ∧ (∀ f id, store_wf (deleteUser f id (db two_users)).1).
Proof.
  split; [exact two_users_wf|].
  exact (store_operations_keep_constraints (db two_users) two_users_wf).
Defined.

Lemma hydrateFromGit_adds_rows_witness :
  store_wf (db two_users)
  ∧ let w' := hydrateFromGit carl_startup two_users in
    git w' = git two_users ∧ heap w' = heap two_users
    ∧ store_wf (db w')
    ∧ ∃ new, rows (db w') = rows (db two_users) ++ new
             ∧ (length new ≤ 2)%nat ∧ Forall hydrated_row new.
Proof.
  split; [exact two_users_wf|].
  exact (hydrateFromGit_adds_rows carl_startup two_users two_users_wf).
Defined.

Lemma hydrateFromGit_idempotent_witness :
  insert_fault (global_env carl_startup) = None
  ∧ insert_fault (repo_env carl_startup) = None
  ∧ let s1 := db (hydrateFromGit carl_startup two_users) in
    let s2 := db (hydrateFromGit carl_startup (hydrateFromGit carl_startup two_users)) in
    rows s1 = [alice; bob; mkUser 3 "Carl" "c@x.com"]
    ∧ sqlite_sequence s1 = 3%Z
    ∧ rows s2 = rows s1
    ∧ last_insert_rowid s2 = last_insert_rowid s1
    ∧ sqlite_sequence s2 = 4%Z.
Proof.
  do 2 (split; [reflexivity|]). intros s1 s2. do 2 (split; [reflexivity|]).
  destruct (hydrateFromGit_idempotent carl_startup two_users eq_refl eq_refl)
    as (Hrows & Hlast & Hseq).
  split; [exact Hrows|]. split; [exact Hlast|]. subst s2. rewrite Hseq. reflexivity.
Defined.

Lemma hydrateFromGit_local_only_witness :
  rows (db empty_world) = []
  ∧ rows (db (hydrateFromGit carl_startup empty_world)) = [mkUser 1 "Carl" "c@x.com"].
Proof.
  split; [reflexivity|].
  refine (proj2 (hydrateFromGit_local_only carl_startup empty_world
                   eq_refl eq_refl eq_refl eq_refl eq_refl _ _) eq_refl eq_refl);
    compute_done.
Defined.

Lemma session_never_panics_witness :
  in_range reference_toolkit
  ∧ ∃ m0 w0,
      initialModel [alice; bob] two_users = Some (m0, w0)
      ∧ ∃ m' w',
          session [quietly (rune "/"); quietly (rune "ali"); quietly (press KeyBackspace)]
            m0 w0 = Some (m', w')
          ∧ session_ok m' w'.
Proof.
  split; [exact reference_in_range|].
  destruct (session_never_panics reference_in_range [alice; bob] two_users
              [quietly (rune "/"); quietly (rune "ali"); quietly (press KeyBackspace)])
    as (m0 & w0 & H0 & _ & _ & _ & _ & _ & _ & _ & m' & w' & Hs & Hok).
  exists m0, w0. split; [exact H0|]. exists m', w'. by split.
Defined.

(** The result of a message on a closed state, handed to [k]. *)
Ltac with_result k :=
  match goal with
  | |- ∃ m' c w', Update ?msg ?env ?m ?w = _ ∧ _ =>
      let r := eval vm_compute in (Update msg env m w) in
      lazymatch r with
      | Some (?m', ?c, ?w') =>
          exists m', c, w'; split; [vm_compute; reflexivity|];
          k msg env m w m' c w'
      end
  end.

Lemma store_written_only_by_delete_or_submit_witness :
  ∃ m w,
    started two_users [] = Some (m, w)
    ∧ ∃ m' c w',
        Update (KeyPress (press KeyBackspace)) (calm true) m w = Some (m', c, w')
        ∧ db w' ≠ db w
        ∧ ∃ k, KeyPress (press KeyBackspace) = KeyPress k
               ∧ ((mode_ m = modeList ∧ Matches k (Delete (keys m)) = true)
                  ∨ (mode_ m ≠ modeList ∧ KType k = KeyEnter ∧ Focused (form1 m) = false)).
Proof.
  eexists _, _. split; [vm_compute; reflexivity|].
  with_result ltac:(fun msg env m w m' c w' =>
    assert (Hne : db w' ≠ db w) by (intros Hq; vm_compute in Hq; discriminate Hq);
    split; [exact Hne|];
    apply (store_written_only_by_delete_or_submit msg env m w m' c w');
    [vm_compute; reflexivity | exact Hne]).
Defined.

Lemma git_touched_only_by_apply_witness :
  ∃ m w,
    started two_users [] = Some (m, w)
    ∧ ∃ m' c w',
        Update (KeyPress (rune "g")) (calm false) m w = Some (m', c, w')
        ∧ git w' ≠ git w
        ∧ ∃ k, KeyPress (rune "g") = KeyPress k ∧ mode_ m = modeList
               ∧ (KType k = KeyEnter
                  ∨ Matches k (Global (keys m)) = true
                  ∨ Matches k (Local (keys m)) = true).
Proof.
  eexists _, _. split; [vm_compute; reflexivity|].
  with_result ltac:(fun msg env m w m' c w' =>
    assert (Hne : git w' ≠ git w) by (intros Hq; vm_compute in Hq; discriminate Hq);
    split; [exact Hne|];
    apply (git_touched_only_by_apply msg env m w m' c w');
    [vm_compute; reflexivity | left; exact Hne]).
Defined.

Lemma mode_changes_witness :
  ∃ m w,
    started two_users [] = Some (m, w)
    ∧ ∃ m' c w',
        Update (KeyPress (rune "a")) (calm true) m w = Some (m', c, w')
        ∧ mode_ m' = modeAdd
        ∧ (mode_ m ≠ modeList → c ≠ QuitCmd)
        ∧ (mode_ m' ≠ mode_ m →
           ∃ k, KeyPress (rune "a") = KeyPress k
                ∧ ((mode_ m = modeList ∧ mode_ m' = modeAdd
                    ∧ Matches k (Add (keys m)) = true)
                   ∨ (mode_ m = modeList ∧ mode_ m' = modeEdit
                      ∧ Matches k (Edit (keys m)) = true)
                   ∨ (mode_ m ≠ modeList ∧ mode_ m' = modeList
                      ∧ (Matches k (Clear (keys m)) = true ∨ KType k = KeyEnter)))).
Proof.
  eexists _, _. split; [vm_compute; reflexivity|].
  with_result ltac:(fun msg env m w m' c w' =>
    split; [reflexivity|];
    apply (mode_changes msg env m w m' c w'); vm_compute; reflexivity).
Defined.

Lemma quit_is_the_binding_or_the_list_witness :
  ∃ m w,
    started two_users [] = Some (m, w)
    ∧ Update (KeyPress (rune "q")) (calm true) m w = Some (m, QuitCmd, w)
    ∧ ∃ m',
        Update (KeyPress (press KeyEsc)) (calm true) m w = Some (m', QuitCmd, w)
        ∧ Matches (press KeyEsc) (Quit (keys m)) = false
        ∧ list_Cmd (press KeyEsc) (s_len (items (list_ m))) (index (list_ m)) = QuitCmd.
Proof.
  eexists _, _. split; [vm_compute; reflexivity|].
  split.
  - match goal with
    | |- Update _ ?env ?m ?w = _ =>
        apply (proj1 (quit_is_the_binding_or_the_list (KeyPress (rune "q")) env m w)
                 (rune "q"));
        reflexivity
    end.
  - eexists. split; [vm_compute; reflexivity|]. split; reflexivity.
Defined.

Lemma nothing_selected_changes_nothing_witness :
  ∃ m w,
    started empty_world [] = Some (m, w)
    ∧ mode_ m = modeList
    ∧ SelectedItem (list_ m) (heap w) = Some None
    ∧ ∃ m' c w',
        Update (KeyPress (press KeyBackspace)) (calm true) m w = Some (m', c, w')
        ∧ db w' = db w ∧ git w' = git w ∧ procs w' = procs w ∧ errMsg m' = errMsg m
        ∧ (mode_ m' = modeList ∨ mode_ m' = modeAdd).
Proof.
  eexists _, _. split; [vm_compute; reflexivity|].
  do 2 (split; [reflexivity|]).
  with_result ltac:(fun msg env m w m' c w' =>
    apply (nothing_selected_changes_nothing (press KeyBackspace) env m w m' c w');
    vm_compute; reflexivity).
Defined.

Lemma delete_key_reaches_the_list_witness :
  ∃ m w,
    started two_users [] = Some (m, w)
    ∧ Update (KeyPress (press KeyDelete)) (calm true) m w
      = Some (set_list (mkList (items (list_ m))
                          (list_Update (press KeyDelete) (s_len (items (list_ m)))
                             (index (list_ m)))) m,
              list_Cmd (press KeyDelete) (s_len (items (list_ m))) (index (list_ m)), w).
Proof.
  eexists _, _. split; [vm_compute; reflexivity|].
  apply delete_key_reaches_the_list; reflexivity.
Defined.

Lemma esc_clears_the_filter_witness :
  ∃ m w,
    started two_users [quietly (rune "/"); quietly (rune "ali")] = Some (m, w)
    ∧ Focused (filter_ m) = true
    ∧ ∃ m',
        Update (KeyPress (press KeyEsc)) (calm true) m w = Some (m', NoCmd, w)
        ∧ filter_ m' = mkInput "" false
        ∧ fuzzy m' = mkFuzzy (all (fuzzy m)) (all (fuzzy m)) ""
        ∧ items (list_ m') = all (fuzzy m)
        ∧ status m' = "filter cleared" ∧ errMsg m' = errMsg m
        ∧ mode_ m' = modeList.
Proof.
  eexists _, _. split; [vm_compute; reflexivity|]. split; [reflexivity|].
  apply (esc_clears_the_filter (press KeyEsc) (calm true)); reflexivity.
Defined.

Lemma backspace_deletes_and_reloads_witness :
  ∃ m w,
    started two_users [] = Some (m, w)
    ∧ SelectedItem (list_ m) (heap w) = Some (Some alice)
    ∧ ∃ m' w',
        Update (KeyPress (press KeyBackspace)) (calm true) m w = Some (m', NoCmd, w')
        ∧ (∀ u, u ∈ rows (db w') ↔ u ∈ rows (db w) ∧ ID u ≠ ID alice)
        ∧ items_of (heap w') (items (list_ m'))
          = Some (Some <$> order_by_name (rows (db w')))
        ∧ view (fuzzy m') = items (list_ m') ∧ all (fuzzy m') = items (list_ m')
        ∧ query (fuzzy m') = "" ∧ filter_ m' = filter_ m
        ∧ status m' = "deleted" ∧ errMsg m' = errMsg m ∧ mode_ m' = modeList
        ∧ git w' = git w ∧ procs w' = procs w.
Proof.
  eexists _, _. split; [vm_compute; reflexivity|]. split; [reflexivity|].
  apply (backspace_deletes_and_reloads (press KeyBackspace) (calm true)); reflexivity.
Defined.

Lemma add_submit_saves_witness :
  ∃ m w,
    started two_users add_cy = Some (m, w)
    ∧ mode_ m = modeAdd ∧ Focused (form1 m) = false
    ∧ TrimSpace (Value (form1 m)) = "Cy" ∧ TrimSpace (Value (form2 m)) = "c@x.com"
    ∧ ∃ m' w',
        Update (KeyPress (press KeyEnter)) (calm true) m w = Some (m', NoCmd, w')
        ∧ rows (db w') = [alice; bob; mkUser 3 "Cy" "c@x.com"]
        ∧ mode_ m' = modeList ∧ status m' = "saved".
Proof.
  eexists _, _. split; [vm_compute; reflexivity|].
  do 4 (split; [reflexivity|]).
  match goal with
  | |- ∃ m' w', Update _ _ ?m ?w = _ ∧ _ =>
      edestruct (add_submit_saves (press KeyEnter) (calm true) m w)
        as (m' & w' & HU & Hdb & _ & _ & _ & _ & _ & Hmode & Hst & _)
  end;
    [reflexivity | reflexivity | reflexivity | reflexivity
    | compute_done | compute_done | reflexivity | exact two_users_wf
    | reflexivity | reflexivity |].
  exists m', w'. split; [exact HU|]. rewrite Hdb. by repeat split.
Defined.

Lemma failed_edit_save_loses_row_witness :
  ∃ m w,
    started two_users [quietly (rune "e"); quietly (press KeyEnter)] = Some (m, w)
    ∧ mode_ m = modeEdit
    ∧ SelectedItem (list_ m) (heap w) = Some (Some alice)
    ∧ ∃ w',
        Update (KeyPress (press KeyEnter)) full_disk m w
        = Some (set_errMsg "database or disk is full" m, NoCmd, w')
        ∧ (∀ u, u ∈ rows (db w') ↔ u ∈ rows (db w) ∧ ID u ≠ ID alice)
        ∧ heap w' = heap w ∧ git w' = git w ∧ procs w' = procs w.
Proof.
  eexists _, _. split; [vm_compute; reflexivity|].
  do 2 (split; [reflexivity|]).
  apply (failed_edit_save_loses_row (press KeyEnter) full_disk);
    first [reflexivity | compute_done].
Defined.

Lemma applySelected_writes_scope_witness :
  ∃ m w,
    started two_users [] = Some (m, w)
    ∧ SelectedItem (list_ m) (heap w) = Some (Some alice)
    ∧ in_repo (calm false) = false
    ∧ ∃ w',
        applySelected "global" (calm false) m w
        = Some (set_status "set global: Alice Smith <a@x.com>" m, NoCmd, w')
        ∧ procs w' = [["git"; "config"; "--global"; "user.name"; "Alice Smith"];
                      ["git"; "config"; "--global"; "user.email"; "a@x.com"]]
        ∧ global_name (git w') = Some "Alice Smith"
        ∧ global_email (git w') = Some "a@x.com".
Proof.
  eexists _, _. split; [vm_compute; reflexivity|].
  do 2 (split; [reflexivity|]).
  match goal with
  | |- ∃ w', applySelected _ _ ?m ?w = _ ∧ _ =>
      edestruct (applySelected_writes_scope true (calm false) m w alice)
        as (w' & HU & Hp & Hn & He & _);
        [reflexivity | discriminate | reflexivity | reflexivity |]
  end.
  exists w'. split; [exact HU|]. split; [exact Hp|]. by split.
Defined.
End MoreRuns.
